(** * react-native-remodal: the dialog registry and the transition engine

    A shallow embedding of [src/index.tsx]: the registry kept by
    [ReModalProvider] (content, visibility and configuration tables and
    the three operations handed out through the context), the
    [ReModal] declaration's mount, update and unmount effects, the
    [Modal] renderer with its first-render guard, the per-frame block
    built by [runOpacityTimer], the back-press listener and the style
    computed by [defaultModalAnimationStyle]. *)

From Stdlib Require Import QArith Qminmax Lqa.
From stdpp Require Import gmap strings list.

Close Scope Q_scope.
Open Scope Z_scope.

(** ** Values the core only stores and forwards *)

(** A JavaScript function held in a prop.  The core never looks inside
    one; it only stores it and calls it, so a function is a handle and a
    call is an entry of the effect trace. *)
Definition Callback := nat.

(** A [React.ReactElement]: opaque payload. *)
Definition ReactElement := nat.

(** A [ViewStyle]: opaque payload. *)
Definition ViewStyle := nat.

(** The value of [modalAnimationFunction]: the exported default or a
    caller-supplied function. *)
Inductive AnimationFunction :=
| defaultModalAnimationStyle
| customAnimation (n : nat).

(** [Partial<IReModalProps>] as stored in [configs]: every field may be
    [undefined].  [children] and [isVisible] are destructured away by
    [ReModal] before the configuration is stored. *)
Record IReModalProps := mkProps {
  onCancel : option Callback;
  autoCloseWhenOpeningNextDialog : option bool;
  modalAnimationFunction : option AnimationFunction;
  onModalShow : option Callback;
  onModalHide : option Callback;
  containerStyle : option ViewStyle;
  keyboardAvoiding : option bool;
  keyboardVerticalOffset : option Z;
}.

(** The object literal [{}]. *)
Definition emptyProps : IReModalProps :=
  mkProps None None None None None None None None.

(** What the registry operations do, in the order they do it. *)
Inductive Effect :=
| CallOnCancel (f : Callback)
| CallOnModalShow (f : Callback)
| CallOnModalHide (f : Callback)
| AssignVisibleView (key : string) (visible : bool)
| AssignConfigs (key : string) (config : IReModalProps)
| SetViews (key : string) (view : option ReactElement).

(** ** JavaScript objects whose entry order matters

    [views] and [visibleView] are read through [Object.entries], which
    lists string keys in insertion order (the keys are [cuid()] results,
    never array indices).  [{ ...o, [key]: v }] keeps the position of a
    key that is already there and appends a new one. *)
Definition JsObject (V : Type) := list (string * V).

Fixpoint obj_get {V} (key : string) (o : JsObject V) : option V :=
  match o with
  | [] => None
  | (k, v) :: o' => if String.eqb k key then Some v else obj_get key o'
  end.

Fixpoint obj_set {V} (key : string) (v : V) (o : JsObject V) : JsObject V :=
  match o with
  | [] => [(key, v)]
  | (k, w) :: o' =>
      if String.eqb k key then (k, v) :: o' else (k, w) :: obj_set key v o'
  end.

Definition obj_keys {V} (o : JsObject V) : list string := map fst o.

(** ** ReModalProvider *)

(** The provider's [useState] cell and its two refs. *)
Record ProviderState := mkProvider {
  views : JsObject (option ReactElement);
  visibleView : JsObject bool;
  configs : gmap string IReModalProps;
}.

Definition emptyProvider : ProviderState := mkProvider [] [] ∅.

(** [const [currentView] = Object.entries(visibleView.current).find(([_, v]) => v) || []] *)
Definition currentView (vv : JsObject bool) : option string :=
  fst <$> List.find (fun kv : string * bool => snd kv) vv.

(** [(key && configs.current[key]) || {}]: an [undefined] or empty key
    and a key without configuration all give [{}]. *)
Definition selectedView (cfgs : gmap string IReModalProps)
    (key : option string) : IReModalProps :=
  match key with
  | Some k => if String.eqb k "" then emptyProps else default emptyProps (cfgs !! k)
  | None => emptyProps
  end.

(** The context value built by one render of the provider.  Its three
    functions close over [currentView], a constant of that render; the
    refs and the state setter are read when a function is called. *)
Record IReModalContext := mkContext {
  closure_currentView : option string;
}.

Definition setView (key : string) (view : option ReactElement)
    (st : ProviderState) : list Effect * ProviderState :=
  ([SetViews key view],
   mkProvider (obj_set key view (views st)) (visibleView st) (configs st)).

Definition setConfig (key : string) (config : IReModalProps)
    (st : ProviderState) : list Effect * ProviderState :=
  ([AssignConfigs key config],
   mkProvider (views st) (visibleView st) (<[key := config]> (configs st))).

Definition setVisible (ctx : IReModalContext) (key : string) (visible : bool)
    (st : ProviderState) : list Effect * ProviderState :=
  let cancelled :=
    if visible then
      let view := selectedView (configs st) (closure_currentView ctx) in
      match onCancel view, autoCloseWhenOpeningNextDialog view with
      | Some f, Some true => [CallOnCancel f]
      | _, _ => []
      end
    else [] in
  (cancelled ++ [AssignVisibleView key visible],
   mkProvider (views st) (obj_set key visible (visibleView st)) (configs st)).

(** The props one [<Modal/>] element receives from the provider. *)
Record ModalProps := mkModalProps {
  modal_key : string;
  modal_children : option ReactElement;
  modal_isVisible : option bool;
  modal_viewStyleFnc : AnimationFunction;
  modal_props : IReModalProps;
}.

(** [const { modalAnimationFunction, ...props } = selectedView(key)] *)
Definition without_modalAnimationFunction (p : IReModalProps) : IReModalProps :=
  mkProps (onCancel p) (autoCloseWhenOpeningNextDialog p) None
    (onModalShow p) (onModalHide p) (containerStyle p)
    (keyboardAvoiding p) (keyboardVerticalOffset p).

Definition render_Modal (st : ProviderState)
    (entry : string * option ReactElement) : ModalProps :=
  let key := fst entry in
  let cfg := selectedView (configs st) (Some key) in
  mkModalProps key (snd entry) (obj_get key (visibleView st))
    (default defaultModalAnimationStyle (modalAnimationFunction cfg))
    (without_modalAnimationFunction cfg).

(** One render of [ReModalProvider]: the context value and the list of
    [<Modal/>] elements, one per entry of [views]. *)
Definition ReModalProvider (st : ProviderState)
    : IReModalContext * list ModalProps :=
  (mkContext (currentView (visibleView st)),
   map (render_Modal st) (views st)).

(** The hardware-back listener installed after each render. *)
Definition hardwareBackPress (ctx : IReModalContext) (st : ProviderState)
    : list Effect * bool :=
  match onCancel (selectedView (configs st) (closure_currentView ctx)) with
  | Some f => ([CallOnCancel f], true)
  | None => ([], false)
  end.

(** ** ReModal, the declaration *)

(** The props of a [<ReModal/>] element. *)
Record ReModalProps := mkReModalProps {
  children : ReactElement;
  isVisible : bool;
  prop_autoCloseWhenOpeningNextDialog : option bool;
  prop_modalAnimationFunction : option AnimationFunction;
  rest : IReModalProps;
}.

(** [{ autoCloseWhenOpeningNextDialog, modalAnimationFunction, ...rest }]
    with the destructuring defaults applied. *)
Definition ReModal_config (p : ReModalProps) : IReModalProps :=
  mkProps (onCancel (rest p))
    (Some (default true (prop_autoCloseWhenOpeningNextDialog p)))
    (Some (default defaultModalAnimationStyle (prop_modalAnimationFunction p)))
    (onModalShow (rest p)) (onModalHide (rest p)) (containerStyle (rest p))
    (keyboardAvoiding (rest p)) (keyboardVerticalOffset (rest p)).

Inductive Error :=
| UsageError (message : string).

Definition outside_provider : string :=
  "<ReModal/> is placed outside of a <ReModalProvider/>. Make sure <ReModalProvider/> is wrapping your root component.".

(** [useContext(ReModalContext)] gives the nearest provider's value, or
    the default [{}] (here [None]) whose [setView] is [undefined]. *)
Definition ReModal_render (provider : option IReModalContext)
    : Error + IReModalContext :=
  match provider with
  | None => inl (UsageError outside_provider)
  | Some ctx => inr ctx
  end.

(** Sequencing of registry operations, traces concatenated. *)
Definition and_then (op1 op2 : ProviderState -> list Effect * ProviderState)
    (st : ProviderState) : list Effect * ProviderState :=
  let r1 := op1 st in
  let r2 := op2 (snd r1) in
  (fst r1 ++ fst r2, snd r2).

(** The three effects of the first commit, in declaration order. *)
Definition ReModal_effects (ctx : IReModalContext) (id : string)
    (p : ReModalProps) : ProviderState -> list Effect * ProviderState :=
  and_then (setVisible ctx id (isVisible p))
    (and_then (setConfig id (ReModal_config p))
       (setView id (Some (children p)))).

(** Mounting [<ReModal/>] with identity [id = cuid()]: the render, then
    the effects. *)
Definition ReModal_mount (provider : option IReModalContext) (id : string)
    (p : ReModalProps) (st : ProviderState)
    : Error + list Effect * ProviderState :=
  match ReModal_render provider with
  | inl e => inl e
  | inr ctx => inr (ReModal_effects ctx id p st)
  end.

(** Unmounting runs the two clean-up functions, in declaration order;
    the configuration effect returns none. *)
Definition ReModal_unmount (ctx : IReModalContext) (id : string)
    : ProviderState -> list Effect * ProviderState :=
  and_then (setVisible ctx id false) (setView id None).

(** ** The transition engine *)

(** [export enum State { BEGAN, END }] *)
Inductive State := BEGAN | END.

Definition State_value (s : State) : Z :=
  match s with BEGAN => 0 | END => 1 end.

(** [Platform.OS] *)
Inductive PlatformOS := ios | android | web.

Definition duration (os : PlatformOS) : Q :=
  match os with ios => 300%Q | _ => 240%Q end.

(** The [state] object handed to [timing]: four [Animated.Value]s. *)
Record TimingState := mkTiming {
  finished : Q;
  position : Q;
  time : Q;
  frameTime : Q;
}.

(** What one call of [runOpacityTimer] allocates: the timing state, the
    [toValue] cell of [config] and the clock, which is running or not. *)
Record Engine := mkEngine {
  state : TimingState;
  toValue : Q;
  clockRunning : bool;
}.

Definition Engine_initial : Engine :=
  mkEngine (mkTiming 0%Q 0%Q 0%Q 0%Q) (-1)%Q false.

(** A node used as a condition is true when its number is not zero. *)
Definition truthy (x : Q) : bool := negb (Qeq_bool x 0%Q).

(** The body shared by the two [cond] branches that start a run; the
    position is not assigned. *)
Definition restart (target : Q) (e : Engine) : Engine :=
  mkEngine (mkTiming 0%Q (position (state e)) 0%Q 0%Q) target true.

(** The first two nodes of the block. *)
Definition observe_signal (gestureState : Z) (e : Engine) : Engine :=
  let e1 :=
    if (gestureState =? State_value BEGAN) && negb (Qeq_bool (toValue e) 1%Q)
    then restart 1%Q e else e in
  if (gestureState =? State_value END) && negb (Qeq_bool (toValue e1) 0%Q)
  then restart 0%Q e1 else e1.

(** [interpolate] from [[0, 1]] to [[0, 1]] with [Extrapolate.CLAMP]. *)
Definition interpolate_clamp (x : Q) : Q :=
  if Qle_bool x 0%Q then 0%Q else if Qle_bool 1%Q x then 1%Q else x.

(** [cond(and(state.finished, eq(gestureState, s)), call([], f))], present
    in the block only when the callback is. *)
Definition completion_call (mk : Callback -> Effect) (callback : option Callback)
    (s : State) (gestureState : Z) (fin : Q) : list Effect :=
  match callback with
  | Some f => if truthy fin && (gestureState =? State_value s) then [mk f] else []
  | None => []
  end.

Section TransitionEngine.

(** [timing(clock, state, config)] belongs to react-native-reanimated.
    It is given the clock's value, the duration and target of [config]
    and the timing state, and assigns the four values of the state. *)
Variable timing : Q -> Q -> Q -> TimingState -> TimingState.
Variable os : PlatformOS.

(** One evaluation of the block returned by [runOpacityTimer], with
    the clock reading [clock]: the new engine, the callbacks called
    and the block's value. *)
Definition runOpacityTimer (onShow onHide : option Callback)
    (gestureState : Z) (clock : Q) (e : Engine) : Engine * list Effect * Q :=
  let e2 := observe_signal gestureState e in
  let st := timing clock (duration os) (toValue e2) (state e2) in
  let running := if truthy (finished st) then false else clockRunning e2 in
  (mkEngine st (toValue e2) running,
   completion_call CallOnModalShow onShow BEGAN gestureState (finished st)
     ++ completion_call CallOnModalHide onHide END gestureState (finished st),
   interpolate_clamp (position st)).

(** *** Modal, the renderer *)

(** One mounted [<Modal/>]: its refs, the dependency of its effect as
    of the last render, and whether [animationState] was written since
    the block was last evaluated. *)
Record ModalInstance := mkModal {
  init : bool;
  rendered_isVisible : option bool;
  animationState : Z;
  pending : bool;
  engine : Engine;
  captured_onModalShow : option Callback;
  captured_onModalHide : option Callback;
}.

(** [isVisible ? a : b] on a prop that may be [undefined]. *)
Definition visible_truthy (v : option bool) : bool := default false v.

(** [isVisible ? State.BEGAN : State.END] *)
Definition signal_of (v : option bool) : Z :=
  State_value (if visible_truthy v then BEGAN else END).

Inductive PointerEvents := auto_events | none_events.

(** [pointerEvents={isVisible ? 'auto' : 'none'}] *)
Definition pointerEvents (m : ModalInstance) : PointerEvents :=
  if visible_truthy (rendered_isVisible m) then auto_events else none_events.

(** The value shown.  The block's value is the clamped position, and
    the position is assigned only when the block is evaluated, so this
    is the value of the last evaluation, and 0 before the first. *)
Definition progress (m : ModalInstance) : Q :=
  interpolate_clamp (position (state (engine m))).

(** The first render: the refs are created, the block is attached to
    the views and awaits its first evaluation. *)
Definition Modal_render_first (p : ModalProps) : ModalInstance :=
  mkModal false (modal_isVisible p) (-1) true Engine_initial
    (onModalShow (modal_props p)) (onModalHide (modal_props p)).

(** The body of the effect: [animationState.setValue] unless this is
    the first run, then [init.current = true]. *)
Definition Modal_effect (m : ModalInstance) : ModalInstance :=
  mkModal true (rendered_isVisible m)
    (if init m then signal_of (rendered_isVisible m) else animationState m)
    (init m || pending m) (engine m)
    (captured_onModalShow m) (captured_onModalHide m).

Definition Modal_mount (p : ModalProps) : ModalInstance :=
  Modal_effect (Modal_render_first p).

(** A later render: the refs keep what the first render gave them, and
    the effect runs when [isVisible] differs from the previous
    render's. *)
Definition Modal_update (isVisible' : option bool) (m : ModalInstance)
    : ModalInstance :=
  if decide (isVisible' = rendered_isVisible m) then m
  else
    Modal_effect
      (mkModal (init m) isVisible' (animationState m) (pending m) (engine m)
         (captured_onModalShow m) (captured_onModalHide m)).

(** One frame of the host's animation loop at timestamp [now]: the
    block is evaluated when a value it reads was written or while its
    clock runs. *)
Definition Modal_frame (now : Q) (m : ModalInstance)
    : ModalInstance * list Effect :=
  if pending m || clockRunning (engine m) then
    let r := runOpacityTimer (captured_onModalShow m) (captured_onModalHide m)
               (animationState m) now (engine m) in
    (mkModal (init m) (rendered_isVisible m) (animationState m) false
       (fst (fst r)) (captured_onModalShow m) (captured_onModalHide m),
     snd (fst r))
  else (m, []).

Inductive ModalInput :=
| Render (isVisible' : option bool)
| Frame (now : Q).

Definition Modal_step (i : ModalInput) (m : ModalInstance)
    : ModalInstance * list Effect :=
  match i with
  | Render v => (Modal_update v m, [])
  | Frame now => Modal_frame now m
  end.

Fixpoint Modal_run (ins : list ModalInput) (m : ModalInstance)
    : ModalInstance * list Effect :=
  match ins with
  | [] => (m, [])
  | i :: ins' =>
      let r := Modal_step i m in
      let r' := Modal_run ins' (fst r) in
      (fst r', snd r ++ snd r')
  end.

End TransitionEngine.

(** *** The contract of [timing]

    The library documents [state.time] as the clock value of the last
    evaluation (zero before the first one of a run) and
    [state.frameTime] as the time the run has been animating. *)
Definition timing_lastTime (clock : Q) (st : TimingState) : Q :=
  if truthy (time st) then time st else clock.

Definition timing_newFrameTime (clock : Q) (st : TimingState) : Q :=
  (frameTime st + (clock - timing_lastTime clock st))%Q.

(** A reference [timing] with the easing curve as a parameter: the
    position is moved along the curve from where the run started to the
    target, and the run finishes when its frame time reaches the
    duration. *)
Definition timing_reference (easing : Q -> Q) (clock d target : Q)
    (st : TimingState) : TimingState :=
  if Qeq_bool d 0%Q then mkTiming 1%Q target (time st) (frameTime st)
  else
    let newFrameTime := timing_newFrameTime clock st in
    let nextProgress := easing (newFrameTime / d)%Q in
    let progress := easing (frameTime st / d)%Q in
    let distanceLeft := (target - position st)%Q in
    let fullDistance := (distanceLeft / (1 - progress))%Q in
    let startPosition := (target - fullDistance)%Q in
    let nextPosition := (startPosition + fullDistance * nextProgress)%Q in
    if Qle_bool d newFrameTime
    then mkTiming 1%Q target clock newFrameTime
    else mkTiming (finished st) nextPosition clock newFrameTime.

Definition Easing_linear (t : Q) : Q := t.

Definition timing_linear : Q -> Q -> Q -> TimingState -> TimingState :=
  timing_reference Easing_linear.

(** Frame timestamps are positive and do not decrease. *)
Fixpoint ticks_after (t : Q) (ts : list Q) : bool :=
  match ts with
  | [] => true
  | x :: ts' => Qle_bool t x && negb (Qle_bool x 0%Q) && ticks_after x ts'
  end.

(** The frames [ts] cover at least [d] time units. *)
Definition spans (d : Q) (ts : list Q) : bool :=
  match ts with
  | [] => false
  | t0 :: ts' => Qle_bool (t0 + d)%Q (List.last ts' t0)
  end.

(** ** One dialog inside the provider

    The registry together with the renderer the provider keeps mounted
    for the identity [id], driven by registry calls (for any identity),
    renders of the provider and animation frames. *)
Inductive RegistryCall :=
| CallSetView (key : string) (view : option ReactElement)
| CallSetConfig (key : string) (config : IReModalProps)
| CallSetVisible (ctx : IReModalContext) (key : string) (visible : bool).

Definition RegistryCall_run (c : RegistryCall)
    : ProviderState -> list Effect * ProviderState :=
  match c with
  | CallSetView key view => setView key view
  | CallSetConfig key config => setConfig key config
  | CallSetVisible ctx key visible => setVisible ctx key visible
  end.

Inductive DialogInput :=
| Call (c : RegistryCall)
| ProviderRender
| AnimationFrame (now : Q).

Record Dialog := mkDialog {
  registry : ProviderState;
  renderer : ModalInstance;
}.

(** The element with key [id] among those the provider renders. *)
Definition rendered_element (id : string) (st : ProviderState)
    : option ModalProps :=
  List.find (fun p => String.eqb (modal_key p) id) (snd (ReModalProvider st)).

Definition Dialog_step (timing : Q -> Q -> Q -> TimingState -> TimingState)
    (os : PlatformOS) (id : string) (i : DialogInput) (d : Dialog)
    : Dialog * list Effect :=
  match i with
  | Call c =>
      let r := RegistryCall_run c (registry d) in
      (mkDialog (snd r) (renderer d), fst r)
  | ProviderRender =>
      match rendered_element id (registry d) with
      | Some p => (mkDialog (registry d) (Modal_update (modal_isVisible p) (renderer d)), [])
      | None => (d, [])
      end
  | AnimationFrame now =>
      let r := Modal_frame timing os now (renderer d) in
      (mkDialog (registry d) (fst r), snd r)
  end.

Fixpoint Dialog_run (timing : Q -> Q -> Q -> TimingState -> TimingState)
    (os : PlatformOS) (id : string) (ins : list DialogInput) (d : Dialog)
    : Dialog * list Effect :=
  match ins with
  | [] => (d, [])
  | i :: ins' =>
      let r := Dialog_step timing os id i d in
      let r' := Dialog_run timing os id ins' (fst r) in
      (fst r', snd r ++ snd r')
  end.

(** The visibility most recently passed to [setVisible] for [id]. *)
Fixpoint last_setVisible (id : string) (ins : list DialogInput)
    (acc : option bool) : option bool :=
  match ins with
  | [] => acc
  | Call (CallSetVisible _ key v) :: ins' =>
      last_setVisible id ins' (if String.eqb key id then Some v else acc)
  | _ :: ins' => last_setVisible id ins' acc
  end.

Fixpoint timestamps (ins : list DialogInput) : list Q :=
  match ins with
  | [] => []
  | AnimationFrame now :: ins' => now :: timestamps ins'
  | _ :: ins' => timestamps ins'
  end.

(** What the engine relies on from [timing], for the duration [d] it
    passes: the bookkeeping of [time] and [frameTime]; a run whose frame
    time reaches [d] is put on its target and flagged finished; until
    then the flag is left alone; and the first evaluation of a run
    leaves the position where the run starts. *)
Record timing_contract (timing : Q -> Q -> Q -> TimingState -> TimingState)
    (d : Q) : Prop := mkContract {
  contract_clock : ∀ clock target st,
    time (timing clock d target st) = clock
    ∧ frameTime (timing clock d target st) = timing_newFrameTime clock st;
  contract_done : ∀ clock target st,
    (d <= timing_newFrameTime clock st)%Q ->
    position (timing clock d target st) = target
    ∧ finished (timing clock d target st) = 1%Q;
  contract_running : ∀ clock target st,
    (timing_newFrameTime clock st < d)%Q ->
    finished (timing clock d target st) = finished st;
  contract_first : ∀ clock target st,
    (time st == 0)%Q -> (frameTime st == 0)%Q ->
    (position (timing clock d target st) == position st)%Q;
}.

Definition frames (ts : list Q) : list ModalInput := map Frame ts.

(** No frame of [ts] leaves the finished flag set. *)
Fixpoint unfinished_through (timing : Q -> Q -> Q -> TimingState -> TimingState)
    (os : PlatformOS) (ts : list Q) (m : ModalInstance) : bool :=
  match ts with
  | [] => true
  | t :: ts' =>
      let m' := fst (Modal_frame timing os t m) in
      negb (truthy (finished (state (engine m'))))
      && unfinished_through timing os ts' m'
  end.

(** Every render among the inputs passes the same [isVisible]. *)
Definition renders_only (v : option bool) (ins : list ModalInput) : bool :=
  forallb (fun i => match i with
                    | Render v' => bool_decide (v' = v)
                    | Frame _ => true
                    end) ins.

(** The callback a completed run towards [s] calls. *)
Definition completion_effects (m : ModalInstance) (s : State) : list Effect :=
  match s with
  | BEGAN => match captured_onModalShow m with Some f => [CallOnModalShow f] | None => [] end
  | END => match captured_onModalHide m with Some f => [CallOnModalHide f] | None => [] end
  end.

(** The target a signal asks for. *)
Definition target_of (gestureState : Z) : Q :=
  if gestureState =? State_value BEGAN then 1%Q else 0%Q.

(** The renderer's invariant, for a renderer first rendered with
    [isVisible = p0] and frames up to timestamp [T]: it has never been
    signalled; or it has, and the block has not yet seen the signal; or a
    run towards 0 or 1 is under way or complete. *)
Definition Modal_fresh (p0 : option bool) (m : ModalInstance) : Prop :=
  init m = true
  ∧ animationState m = -1
  ∧ rendered_isVisible m = p0
  ∧ toValue (engine m) = (-1)%Q
  ∧ clockRunning (engine m) = false
  ∧ (position (state (engine m)) == 0)%Q
  ∧ (pending m = true ->
     (time (state (engine m)) == 0)%Q ∧ (frameTime (state (engine m)) == 0)%Q).

Inductive Modal_inv (d : Q) (p0 : option bool) (T : Q) (m : ModalInstance) : Prop :=
| inv_fresh :
    Modal_fresh p0 m ->
    Modal_inv d p0 T m
| inv_scheduled :
    init m = true ->
    animationState m = signal_of (rendered_isVisible m) ->
    toValue (engine m) = (-1)%Q ->
    clockRunning (engine m) = false ->
    pending m = true ->
    Modal_inv d p0 T m
| inv_run :
    init m = true ->
    animationState m = signal_of (rendered_isVisible m) ->
    toValue (engine m) = 0%Q ∨ toValue (engine m) = 1%Q ->
    (0 < time (state (engine m)))%Q ->
    (time (state (engine m)) <= T)%Q ->
    (0 <= frameTime (state (engine m)))%Q ->
    (clockRunning (engine m) = true ->
     truthy (finished (state (engine m))) = false
     ∧ (frameTime (state (engine m)) < d)%Q) ->
    (clockRunning (engine m) = false ->
     position (state (engine m)) = toValue (engine m)
     ∧ (d <= frameTime (state (engine m)))%Q) ->
    (toValue (engine m) ≠ target_of (animationState m) -> pending m = true) ->
    Modal_inv d p0 T m.

(** Sample data: two dialogs, the first one visible and configured with
    a cancel handler. *)
Definition dialogA : string := "cjld2cjxh0000qzrmn831i7rn".
Definition dialogB : string := "cjld2cyuq0001t3rmniod1foy".

Definition propsA : ReModalProps :=
  mkReModalProps 1%nat true None None
    (mkProps (Some 7%nat) None None (Some 8%nat) (Some 9%nat) None None None).

Definition propsB : ReModalProps :=
  mkReModalProps 2%nat false None None emptyProps.

(** The registry after both declarations were mounted under one render
    of an empty provider. *)
Definition sample_registry : ProviderState :=
  let ctx := fst (ReModalProvider emptyProvider) in
  snd (ReModal_effects ctx dialogB propsB
         (snd (ReModal_effects ctx dialogA propsA emptyProvider))).

(** The element the provider renders for [dialogA], which is visible,
    and one for the same dialog first rendered while hidden. *)
Definition visible_element : ModalProps :=
  render_Modal sample_registry (dialogA, Some 1%nat).

Definition hidden_element : ModalProps :=
  mkModalProps dialogA (Some 1%nat) (Some false) defaultModalAnimationStyle
    (without_modalAnimationFunction (ReModal_config propsA)).

(** A renderer mounted hidden, then rendered with [isVisible = true];
    the block has not yet seen the signal. *)
Definition sample_signalled : ModalInstance :=
  fst (Modal_run timing_linear android
         [Frame 16%Q; Render (Some true)] (Modal_mount hidden_element)).

(** The same renderer one frame later: the show run is under way. *)
Definition sample_showing : ModalInstance :=
  fst (Modal_run timing_linear android [Frame 32%Q] sample_signalled).

(** [dialogB] is opened, closed and opened again while frames pass. *)
Definition sample_calls : list DialogInput :=
  let ctx := fst (ReModalProvider sample_registry) in
  [AnimationFrame 16%Q; Call (CallSetVisible ctx dialogB true); ProviderRender;
   AnimationFrame 32%Q; AnimationFrame 100%Q;
   Call (CallSetVisible ctx dialogB false); ProviderRender;
   AnimationFrame 116%Q;
   Call (CallSetVisible ctx dialogB true)].

(** ** Further parts of the source *)

(** A run of registry calls, traces concatenated. *)
Fixpoint Registry_run (calls : list RegistryCall) (st : ProviderState)
    : list Effect * ProviderState :=
  match calls with
  | [] => ([], st)
  | c :: calls' => and_then (RegistryCall_run c) (Registry_run calls') st
  end.

Definition skip (st : ProviderState) : list Effect * ProviderState := ([], st).

Definition when (b : bool) (op : ProviderState -> list Effect * ProviderState)
    : ProviderState -> list Effect * ProviderState :=
  if b then op else skip.

(** A later render of [<ReModal/>] with props [new] after [old].  The
    visibility effect depends on [isVisible] and the content effect on
    the identity of [children]; [rest] is a fresh object on every
    render, so the configuration effect always runs.  The clean-ups of
    the effects that run again come first, then the effects. *)
Definition ReModal_update (ctx : IReModalContext) (id : string)
    (old new : ReModalProps) : ProviderState -> list Effect * ProviderState :=
  let visible_changed := negb (Bool.eqb (isVisible old) (isVisible new)) in
  let children_changed := negb (Nat.eqb (children old) (children new)) in
  and_then (when visible_changed (setVisible ctx id false))
    (and_then (when children_changed (setView id None))
       (and_then (when visible_changed (setVisible ctx id (isVisible new)))
          (and_then (setConfig id (ReModal_config new))
             (when children_changed (setView id (Some (children new))))))).

(** The registry holds the props [p] of the declaration [id]. *)
Definition registered (id : string) (p : ReModalProps) (st : ProviderState) : Prop :=
  obj_get id (views st) = Some (Some (children p))
  ∧ obj_get id (visibleView st) = Some (isVisible p)
  ∧ configs st !! id = Some (ReModal_config p).

(** What the registry holds for one identity. *)
Definition entry_of (key : string) (st : ProviderState)
    : option (option ReactElement) * option bool * option IReModalProps :=
  (obj_get key (views st), obj_get key (visibleView st), configs st !! key).

(** Every completion callback in a trace is the one given. *)
Definition completion_calls_are (onShow onHide : option Callback)
    (trace : list Effect) : Prop :=
  Forall (fun e => match e with
                   | CallOnModalShow f => onShow = Some f
                   | CallOnModalHide f => onHide = Some f
                   | _ => True
                   end) trace.

(** A registry holding [dialogA] hidden, with its callbacks. *)
Definition hidden_registry : ProviderState :=
  snd (ReModal_effects (fst (ReModalProvider emptyProvider)) dialogA
         (mkReModalProps 1%nat false None None (rest propsA)) emptyProvider).

(** Both sample dialogs mounted hidden, the context value of the
    provider's render after that, and the registry after [dialogA] was
    then opened by a later render of its declaration, the provider not
    having rendered since. *)
Definition propsA_hidden : ReModalProps :=
  mkReModalProps 1%nat false None None (rest propsA).

Definition propsB_visible : ReModalProps :=
  mkReModalProps 2%nat true None None emptyProps.

Definition both_hidden : ProviderState :=
  snd (ReModal_effects (fst (ReModalProvider emptyProvider)) dialogB propsB
         hidden_registry).

Definition context_before_opening : IReModalContext :=
  fst (ReModalProvider both_hidden).

Definition dialogA_opened : ProviderState :=
  snd (ReModal_update context_before_opening dialogA propsA_hidden propsA
         both_hidden).

(** The timestamps of the frames among a renderer's inputs. *)
Fixpoint frame_times (ins : list ModalInput) : list Q :=
  match ins with
  | [] => []
  | Frame now :: ins' => now :: frame_times ins'
  | Render _ :: ins' => frame_times ins'
  end.

(** *** defaultModalAnimationStyle *)

(** One segment of [interpolate]: linear from [(inS, outS)] to
    [(inE, outE)], a step when the segment has no width. *)
Definition interpolateInternalSingle (value inS inE outS outE : Q) : Q :=
  if Qeq_bool inS inE
  then (if Qle_bool value inS then outS else outE)
  else (outS + ((value - inS) / (inE - inS)) * (outE - outS))%Q.

(** The segment of [inputRange] the value falls in. *)
Fixpoint interpolateInternal (value : Q) (inputRange outputRange : list Q) : Q :=
  match inputRange, outputRange with
  | inS :: ((inE :: more) as inputRange'), outS :: ((outE :: _) as outputRange') =>
      match more with
      | [] => interpolateInternalSingle value inS inE outS outE
      | _ :: _ =>
          if negb (Qle_bool inE value)
          then interpolateInternalSingle value inS inE outS outE
          else interpolateInternal value inputRange' outputRange'
      end
  | _, _ => 0%Q
  end.

(** [interpolate(value, { inputRange, outputRange, extrapolate:
    Extrapolate.CLAMP })] of react-native-reanimated: linear between
    neighbouring points of the two ranges, and the first or last output
    for a value outside the input range. *)
Definition interpolate (value : Q) (inputRange outputRange : list Q) : Q :=
  let output := interpolateInternal value inputRange outputRange in
  let output :=
    if negb (Qle_bool (List.hd 0%Q inputRange) value)
    then List.hd 0%Q outputRange else output in
  if negb (Qle_bool value (List.last inputRange 0%Q))
  then List.last outputRange 0%Q else output.

(** The style object: [{ opacity, transform: [{ scale }, { perspective }] }]. *)
Record AnimatedStyle := mkStyle {
  style_opacity : Q;
  style_scale : Q;
  style_perspective : Q;
}.

(** The value of the style [defaultModalAnimationStyle] builds, for a
    signal value and a value of the [opacity] node. *)
Definition defaultModalAnimationStyle_value (os : PlatformOS)
    (gestureState : Z) (opacity : Q) : AnimatedStyle :=
  let opacityIn :=
    if gestureState =? State_value BEGAN
    then interpolate opacity
           (match os with ios => [0%Q; (2 # 10)%Q; 1%Q] | _ => [0%Q; 1%Q] end)
           (match os with ios => [0%Q; 1%Q; 1%Q] | _ => [0%Q; 1%Q] end)
    else opacity in
  let scaleIn :=
    if gestureState =? State_value BEGAN
    then interpolate opacity [0%Q; 1%Q]
           [match os with android => (8 # 10)%Q | _ => (12 # 10)%Q end; 1%Q]
    else 1%Q in
  mkStyle opacityIn scaleIn 200%Q.

(** ** The registry: lemmas *)

Lemma obj_get_set_eq {V} (key : string) (v : V) (o : JsObject V) :
  obj_get key (obj_set key v o) = Some v.
Proof.
  induction o as [|[k w] o IH]; simpl.
  - by rewrite String.eqb_refl.
  - destruct (String.eqb k key) eqn:E; simpl; rewrite E; auto.
Qed.

Lemma obj_get_set_ne {V} (key key' : string) (v : V) (o : JsObject V) :
  key ≠ key' -> obj_get key' (obj_set key v o) = obj_get key' o.
Proof.
  intros Hne. induction o as [|[k w] o IH]; simpl.
  - destruct (String.eqb_spec key key'); congruence.
  - destruct (String.eqb_spec k key) as [->|Hk]; simpl.
    + destruct (String.eqb_spec key key'); congruence.
    + destruct (String.eqb_spec k key'); auto.
Qed.

Lemma obj_set_same {V} (key : string) (v : V) (o : JsObject V) :
  obj_get key o = Some v -> obj_set key v o = o.
Proof.
  induction o as [|[k w] o IH]; simpl; [discriminate|].
  destruct (String.eqb k key) eqn:E.
  - by intros [= ->].
  - intros H. by rewrite IH.
Qed.

Lemma obj_keys_set {V} (key : string) (v : V) (o : JsObject V) :
  In key (obj_keys (obj_set key v o)).
Proof.
  induction o as [|[k w] o IH]; simpl; [by left|].
  destruct (String.eqb_spec k key) as [->|Hk]; simpl; auto.
Qed.

Lemma obj_keys_set_mono {V} (key key' : string) (v : V) (o : JsObject V) :
  In key' (obj_keys o) -> In key' (obj_keys (obj_set key v o)).
Proof.
  induction o as [|[k w] o IH]; simpl; [tauto|].
  destruct (String.eqb_spec k key) as [->|Hk]; simpl; tauto.
Qed.

Lemma obj_get_In {V} (key : string) (v : V) (o : JsObject V) :
  obj_get key o = Some v -> In (key, v) o.
Proof.
  induction o as [|[k w] o IH]; simpl; [discriminate|].
  destruct (String.eqb_spec k key) as [->|Hk].
  - intros [= ->]. by left.
  - intros H. right. auto.
Qed.

Lemma selectedView_Some (cfgs : gmap string IReModalProps) (k : string)
    (cfg : IReModalProps) :
  k ≠ "" -> cfgs !! k = Some cfg -> selectedView cfgs (Some k) = cfg.
Proof.
  intros Hk Hc. unfold selectedView.
  destruct (String.eqb_spec k ""); [done|]. by rewrite Hc.
Qed.

Lemma rendered_element_lookup (id : string) (st : ProviderState)
    (view : option ReactElement) :
  obj_get id (views st) = Some view ->
  rendered_element id st = Some (render_Modal st (id, view)).
Proof.
  unfold rendered_element, ReModalProvider. simpl.
  induction (views st) as [|[k w] o IH]; simpl; [discriminate|].
  destruct (String.eqb k id) eqn:E.
  - intros [= ->]. apply String.eqb_eq in E. by subst k.
  - exact IH.
Qed.

Lemma rendered_keys (st : ProviderState) :
  map modal_key (snd (ReModalProvider st)) = obj_keys (views st).
Proof.
  unfold ReModalProvider, obj_keys. simpl. rewrite map_map. reflexivity.
Qed.

(** ** The registry: the claims *)

(** C1, as the code has it. Let [A] be the [currentView] of the
    provider render that built the context value the call goes through
    (the first dialog stored visible when that render ran), configured
    at the time of the call with [onCancel = f], and let [B] be
    another, hidden dialog.  Then [setVisible(B, true)] calls [f]
    exactly once, and does so before it assigns [visibleView.current]
    with [B] set to true, when [A]'s [autoCloseWhenOpeningNextDialog]
    is true; when it is not, the call assigns the visibility and calls
    nothing. *)
Theorem setVisible_auto_close (ctx : IReModalContext) (st : ProviderState)
    (A B : string) (cfg : IReModalProps) (f : Callback) :
  A ≠ B ->
  A ≠ "" ->
  closure_currentView ctx = Some A ->
  configs st !! A = Some cfg ->
  onCancel cfg = Some f ->
  obj_get B (visibleView st) ≠ Some true ->
  (autoCloseWhenOpeningNextDialog cfg = Some true ->
   fst (setVisible ctx B true st) = [CallOnCancel f; AssignVisibleView B true])
  ∧ (autoCloseWhenOpeningNextDialog cfg ≠ Some true ->
     fst (setVisible ctx B true st) = [AssignVisibleView B true])
  ∧ obj_get B (visibleView (snd (setVisible ctx B true st))) = Some true
  ∧ obj_get A (visibleView (snd (setVisible ctx B true st)))
    = obj_get A (visibleView st).
Proof.
  intros HAB HA Hcur Hcfg Hf _.
  unfold setVisible. rewrite Hcur, (selectedView_Some _ _ _ HA Hcfg), Hf. simpl.
  repeat split.
  - by intros ->.
  - intros Hauto. destruct (autoCloseWhenOpeningNextDialog cfg) as [[]|]; done.
  - apply obj_get_set_eq.
  - apply obj_get_set_ne. congruence.
Qed.

Lemma setVisible_auto_close_witness :
  let ctx := fst (ReModalProvider sample_registry) in
  let cfg := ReModal_config propsA in
  (autoCloseWhenOpeningNextDialog cfg = Some true ->
   fst (setVisible ctx dialogB true sample_registry)
   = [CallOnCancel 7%nat; AssignVisibleView dialogB true])
  ∧ (autoCloseWhenOpeningNextDialog cfg ≠ Some true ->
     fst (setVisible ctx dialogB true sample_registry)
     = [AssignVisibleView dialogB true])
  ∧ obj_get dialogB (visibleView (snd (setVisible ctx dialogB true sample_registry)))
    = Some true
  ∧ obj_get dialogA (visibleView (snd (setVisible ctx dialogB true sample_registry)))
    = obj_get dialogA (visibleView sample_registry).
Proof.
  apply (setVisible_auto_close (fst (ReModalProvider sample_registry))
           sample_registry dialogA dialogB (ReModal_config propsA) 7%nat).
  - discriminate.
  - discriminate.
  - reflexivity.
  - vm_compute. reflexivity.
  - reflexivity.
  - vm_compute. discriminate.
Defined.

(** C1 as stated fails: [dialogA] is stored visible and is the first
    visible entry, configured with [onCancel] and
    [autoCloseWhenOpeningNextDialog] true, [dialogB] is hidden, and
    [setVisible(dialogB, true)], made through the context value of the
    provider's last render, which ran before [dialogA] was opened,
    calls no [onCancel]; nor does the later render of [dialogB]'s
    declaration that opens it in the same commit. *)
Lemma stale_context_skips_auto_close :
  dialogA ≠ dialogB
  ∧ obj_get dialogA (visibleView dialogA_opened) = Some true
  ∧ currentView (visibleView dialogA_opened) = Some dialogA
  ∧ configs dialogA_opened !! dialogA = Some (ReModal_config propsA)
  ∧ onCancel (ReModal_config propsA) = Some 7%nat
  ∧ autoCloseWhenOpeningNextDialog (ReModal_config propsA) = Some true
  ∧ obj_get dialogB (visibleView dialogA_opened) = Some false
  ∧ closure_currentView context_before_opening = None
  ∧ fst (setVisible context_before_opening dialogB true dialogA_opened)
    = [AssignVisibleView dialogB true]
  ∧ (∀ f, ¬ In (CallOnCancel f)
            (fst (ReModal_update context_before_opening dialogB propsB
                    propsB_visible dialogA_opened))).
Proof.
  split; [discriminate|].
  repeat (split; [vm_compute; reflexivity|]).
  intros f. vm_compute.
  intros H; repeat destruct H as [H|H]; try discriminate; done.
Qed.

(** [currentView] is a constant of the render that built the context
    value: a call made through a context value older than the last
    visibility assignment still sees that render's [currentView].  Here
    [dialogA] is mounted visible and [dialogB] is opened under the same
    render, which saw no visible dialog. *)
Lemma currentView_is_fixed_at_render :
  let ctx := fst (ReModalProvider emptyProvider) in
  let st := snd (ReModal_effects ctx dialogA propsA emptyProvider) in
  currentView (visibleView st) = Some dialogA
  ∧ fst (setVisible ctx dialogB true st) = [AssignVisibleView dialogB true]
  ∧ fst (setVisible (fst (ReModalProvider st)) dialogB true st)
    = [CallOnCancel 7%nat; AssignVisibleView dialogB true].
Proof. repeat split; vm_compute; reflexivity. Qed.

(** C10, as the code has it. The check does not leave out the dialog
    being opened: when [id] is itself the [currentView] of the provider
    render that built the context value the call goes through, and its
    configuration has [onCancel = f] and
    [autoCloseWhenOpeningNextDialog] true, [setVisible(id, true)] calls
    [id]'s own [f] and then stores [id] as visible; so it does through
    the context value of a render made while [id] is the first visible
    dialog. *)
Theorem setVisible_reopen_calls_own_onCancel (ctx : IReModalContext)
    (st : ProviderState) (id : string) (cfg : IReModalProps) (f : Callback) :
  id ≠ "" ->
  closure_currentView ctx = Some id ->
  configs st !! id = Some cfg ->
  onCancel cfg = Some f ->
  autoCloseWhenOpeningNextDialog cfg = Some true ->
  fst (setVisible ctx id true st) = [CallOnCancel f; AssignVisibleView id true]
  ∧ obj_get id (visibleView (snd (setVisible ctx id true st))) = Some true
  ∧ (currentView (visibleView st) = Some id ->
     fst (setVisible (fst (ReModalProvider st)) id true st)
     = [CallOnCancel f; AssignVisibleView id true]).
Proof.
  intros Hid Hcur Hcfg Hf Hauto.
  unfold setVisible, ReModalProvider. simpl.
  rewrite Hcur, (selectedView_Some _ _ _ Hid Hcfg), Hf, Hauto.
  split; [done|]. split; [apply obj_get_set_eq|].
  intros Hcur'.
  by rewrite Hcur', (selectedView_Some _ _ _ Hid Hcfg), Hf, Hauto.
Qed.

Lemma setVisible_reopen_calls_own_onCancel_witness :
  let ctx := fst (ReModalProvider sample_registry) in
  fst (setVisible ctx dialogA true sample_registry)
  = [CallOnCancel 7%nat; AssignVisibleView dialogA true]
  ∧ obj_get dialogA (visibleView (snd (setVisible ctx dialogA true sample_registry)))
    = Some true
  ∧ (currentView (visibleView sample_registry) = Some dialogA ->
     fst (setVisible (fst (ReModalProvider sample_registry)) dialogA true
            sample_registry)
     = [CallOnCancel 7%nat; AssignVisibleView dialogA true]).
Proof.
  apply (setVisible_reopen_calls_own_onCancel (fst (ReModalProvider sample_registry))
           sample_registry dialogA (ReModal_config propsA) 7%nat).
  - discriminate.
  - reflexivity.
  - vm_compute. reflexivity.
  - reflexivity.
  - reflexivity.
Defined.

(** C10 as stated fails: [dialogA] is the first dialog stored visible,
    configured with [onCancel] and [autoCloseWhenOpeningNextDialog]
    true, and another [setVisible(dialogA, true)] through the context
    value of the provider's last render, which ran before [dialogA] was
    opened, calls no [onCancel]; so do two such calls in a row through
    that one context value. *)
Lemma stale_context_skips_own_onCancel :
  obj_get dialogA (visibleView dialogA_opened) = Some true
  ∧ currentView (visibleView dialogA_opened) = Some dialogA
  ∧ configs dialogA_opened !! dialogA = Some (ReModal_config propsA)
  ∧ onCancel (ReModal_config propsA) = Some 7%nat
  ∧ autoCloseWhenOpeningNextDialog (ReModal_config propsA) = Some true
  ∧ fst (setVisible context_before_opening dialogA true dialogA_opened)
    = [AssignVisibleView dialogA true]
  ∧ fst (setVisible context_before_opening dialogA true
           (snd (setVisible context_before_opening dialogA true both_hidden)))
    = [AssignVisibleView dialogA true].
Proof. repeat split; vm_compute; reflexivity. Qed.

(** C8. [setConfig(id, config)] stores [config] as the whole
    configuration of [id]: whatever an earlier call stored for [id] is
    gone, no field of it survives, and the configurations of all other
    identities, the contents and the visibilities stay as they were. *)
Theorem setConfig_replaces_wholesale (id : string) (config earlier : IReModalProps)
    (st : ProviderState) :
  configs (snd (setConfig id config st)) !! id = Some config
  ∧ snd (setConfig id config (snd (setConfig id earlier st)))
    = snd (setConfig id config st)
  ∧ delete id (configs (snd (setConfig id config st))) = delete id (configs st)
  ∧ views (snd (setConfig id config st)) = views st
  ∧ visibleView (snd (setConfig id config st)) = visibleView st.
Proof.
  unfold setConfig. simpl. repeat split.
  - apply lookup_insert_eq.
  - by rewrite insert_insert_eq.
  - apply delete_insert_eq.
Qed.

(** C7. A [<ReModal/>] rendered with no provider above it throws the
    usage error during that render, before any effect, and with a
    provider it does not throw; the three registry operations are
    defined on every identity, known or not, and leave the given value
    stored under it. *)
Theorem usage_error_only_outside_provider :
  (∀ id p st,
      ReModal_mount None id p st = inl (UsageError outside_provider))
  ∧ (∀ ctx id p st,
        ReModal_mount (Some ctx) id p st = inr (ReModal_effects ctx id p st))
  ∧ (∀ key view st,
        obj_get key (views (snd (setView key view st))) = Some view)
  ∧ (∀ key config st,
        configs (snd (setConfig key config st)) !! key = Some config)
  ∧ (∀ ctx key visible st,
        obj_get key (visibleView (snd (setVisible ctx key visible st)))
        = Some visible).
Proof.
  repeat split; intros; simpl.
  - apply obj_get_set_eq.
  - apply lookup_insert_eq.
  - apply obj_get_set_eq.
Qed.

(** C5, as the code has it. Unmounting a declaration assigns [undefined]
    to its content and [false] to its visibility, in that order of
    calls; its configuration stays stored as it was, and the identity
    stays a key of [views], so the provider goes on rendering a
    [<Modal/>] for it, with no children and [isVisible = false]. *)
Theorem ReModal_unmount_keeps_entry (ctx : IReModalContext) (id : string)
    (st : ProviderState) :
  let st' := snd (ReModal_unmount ctx id st) in
  fst (ReModal_unmount ctx id st) = [AssignVisibleView id false; SetViews id None]
  ∧ obj_get id (views st') = Some None
  ∧ obj_get id (visibleView st') = Some false
  ∧ configs st' = configs st
  ∧ rendered_element id st'
    = Some (mkModalProps id None (Some false)
              (default defaultModalAnimationStyle
                 (modalAnimationFunction (selectedView (configs st) (Some id))))
              (without_modalAnimationFunction (selectedView (configs st) (Some id)))).
Proof.
  simpl. repeat split.
  - apply obj_get_set_eq.
  - apply obj_get_set_eq.
  - rewrite (rendered_element_lookup id _ None) by apply obj_get_set_eq.
    unfold render_Modal. simpl. by rewrite obj_get_set_eq.
Qed.

(** C5 as stated fails: after [dialogA] is mounted and unmounted its
    configuration is neither removed nor reset, and the provider's
    render still holds an element for it. *)
Lemma unmount_leaves_configuration_and_renderer :
  let ctx := fst (ReModalProvider emptyProvider) in
  let mounted := snd (ReModal_effects ctx dialogA propsA emptyProvider) in
  let st' := snd (ReModal_unmount ctx dialogA mounted) in
  configs st' !! dialogA = Some (ReModal_config propsA)
  ∧ ReModal_config propsA ≠ emptyProps
  ∧ In dialogA (map modal_key (snd (ReModalProvider st'))).
Proof.
  split; [|split].
  - vm_compute. reflexivity.
  - discriminate.
  - vm_compute. by left.
Qed.

(** ** The reference timing meets the contract *)

Lemma truthy_pos (x : Q) : (0 < x)%Q -> truthy x = true.
Proof.
  intros H. unfold truthy. destruct (Qeq_bool x 0) eqn:E; [|done].
  apply Qeq_bool_iff in E. lra.
Qed.

Lemma truthy_zero (x : Q) : (x == 0)%Q -> truthy x = false.
Proof.
  intros H. unfold truthy. apply Qeq_bool_iff in H. by rewrite H.
Qed.

Lemma newFrameTime_first (clock : Q) (st : TimingState) :
  (time st == 0)%Q -> (frameTime st == 0)%Q ->
  (timing_newFrameTime clock st == 0)%Q.
Proof.
  intros Ht Hf. unfold timing_newFrameTime, timing_lastTime.
  rewrite (truthy_zero _ Ht). lra.
Qed.

Lemma newFrameTime_later (clock : Q) (st : TimingState) :
  (0 < time st)%Q ->
  (timing_newFrameTime clock st == frameTime st + (clock - time st))%Q.
Proof.
  intros Ht. unfold timing_newFrameTime, timing_lastTime.
  rewrite (truthy_pos _ Ht). lra.
Qed.

Lemma timing_linear_contract (d : Q) :
  (0 < d)%Q -> timing_contract timing_linear d.
Proof.
  intros Hd.
  assert (Hd0 : Qeq_bool d 0 = false).
  { destruct (Qeq_bool d 0) eqn:E; [|done]. apply Qeq_bool_iff in E. lra. }
  split; intros clock target st; unfold timing_linear, timing_reference;
    rewrite Hd0.
  - by destruct (Qle_bool d (timing_newFrameTime clock st)).
  - intros Hle. apply Qle_bool_iff in Hle. by rewrite Hle.
  - intros Hlt. destruct (Qle_bool d (timing_newFrameTime clock st)) eqn:E; [|done].
    apply Qle_bool_iff in E. lra.
  - intros Ht Hf.
    pose proof (newFrameTime_first clock st Ht Hf) as Hn.
    destruct (Qle_bool d (timing_newFrameTime clock st)) eqn:E.
    { apply Qle_bool_iff in E. lra. }
    simpl. unfold Easing_linear. rewrite Hn, Hf. field. lra.
Qed.

(** ** The engine and the renderer: lemmas *)

Lemma duration_pos (os : PlatformOS) : (0 < duration os)%Q.
Proof. destruct os; reflexivity. Qed.

Lemma interpolate_clamp_zero (x : Q) : (x == 0)%Q -> interpolate_clamp x = 0%Q.
Proof.
  intros H. unfold interpolate_clamp.
  assert (E : Qle_bool x 0 = true) by (apply Qle_bool_iff; lra).
  by rewrite E.
Qed.

Lemma completion_call_unfinished (mk : Callback -> Effect)
    (callback : option Callback) (s : State) (g : Z) (fin : Q) :
  truthy fin = false -> completion_call mk callback s g fin = [].
Proof. intros H. unfold completion_call. rewrite H. by destruct callback. Qed.

Lemma completion_call_other_signal (mk : Callback -> Effect)
    (callback : option Callback) (s : State) (g : Z) (fin : Q) :
  g ≠ State_value s -> completion_call mk callback s g fin = [].
Proof.
  intros H. unfold completion_call. apply Z.eqb_neq in H. rewrite H.
  rewrite andb_false_r. by destruct callback.
Qed.

Lemma observe_signal_restart (s : State) (e : Engine) :
  Qeq_bool (toValue e) (target_of (State_value s)) = false ->
  observe_signal (State_value s) e = restart (target_of (State_value s)) e.
Proof.
  intros H. unfold observe_signal, target_of in *.
  destruct s; simpl in *; by rewrite H.
Qed.

Lemma observe_signal_on_target (s : State) (e : Engine) :
  Qeq_bool (toValue e) (target_of (State_value s)) = true ->
  observe_signal (State_value s) e = e.
Proof.
  intros H. unfold observe_signal, target_of in *.
  destruct s; simpl in *; by rewrite H.
Qed.

Lemma observe_signal_unassigned (e : Engine) : observe_signal (-1) e = e.
Proof. reflexivity. Qed.

Section Renderer.

Variable timing : Q -> Q -> Q -> TimingState -> TimingState.
Variable os : PlatformOS.

Abbreviation frame_at := (Modal_frame timing os).
Abbreviation run := (Modal_run timing os).

Lemma Modal_run_app (a b : list ModalInput) (m : ModalInstance) :
  run (a ++ b) m
  = (fst (run b (fst (run a m))),
     snd (run a m) ++ snd (run b (fst (run a m)))).
Proof.
  revert m. induction a as [|i a IH]; intros m; simpl.
  - by destruct (run b m).
  - rewrite IH. simpl. by rewrite app_assoc.
Qed.

Lemma Modal_frame_idle (t : Q) (m : ModalInstance) :
  pending m = false -> clockRunning (engine m) = false ->
  frame_at t m = (m, []).
Proof. intros Hp Hc. unfold Modal_frame. by rewrite Hp, Hc. Qed.

Lemma Modal_frames_idle (ts : list Q) (m : ModalInstance) :
  pending m = false -> clockRunning (engine m) = false ->
  run (frames ts) m = (m, []).
Proof.
  intros Hp Hc. induction ts as [|t ts IH]; simpl; [done|].
  rewrite (Modal_frame_idle t m Hp Hc). simpl. by rewrite IH.
Qed.

(** A frame leaves the React side of the renderer alone. *)
Lemma Modal_frame_keeps (t : Q) (m : ModalInstance) :
  let m' := fst (frame_at t m) in
  init m' = init m
  ∧ rendered_isVisible m' = rendered_isVisible m
  ∧ animationState m' = animationState m
  ∧ captured_onModalShow m' = captured_onModalShow m
  ∧ captured_onModalHide m' = captured_onModalHide m.
Proof.
  unfold Modal_frame.
  by destruct (pending m || clockRunning (engine m)).
Qed.

(** A frame that leaves the flag clear calls nothing. *)
Lemma Modal_frame_unfinished (t : Q) (m : ModalInstance) :
  truthy (finished (state (engine (fst (frame_at t m))))) = false ->
  snd (frame_at t m) = [].
Proof.
  unfold Modal_frame.
  destruct (pending m || clockRunning (engine m)); [|done].
  simpl. intros H. by rewrite !completion_call_unfinished.
Qed.

(** The frame on which the flag becomes set calls the callback of the
    signalled direction and stops the clock. *)
Lemma Modal_frame_completes (t : Q) (m : ModalInstance) (s : State) :
  animationState m = State_value s ->
  truthy (finished (state (engine m))) = false ->
  truthy (finished (state (engine (fst (frame_at t m))))) = true ->
  snd (frame_at t m) = completion_effects m s
  ∧ pending (fst (frame_at t m)) = false
  ∧ clockRunning (engine (fst (frame_at t m))) = false.
Proof.
  intros Hs H0. unfold Modal_frame.
  destruct (pending m || clockRunning (engine m)); simpl; [|congruence].
  intros H1. unfold completion_call, completion_effects. rewrite H1, Hs.
  destruct s, (captured_onModalShow m), (captured_onModalHide m); done.
Qed.

Lemma unfinished_frames (ts : list Q) (m : ModalInstance) :
  truthy (finished (state (engine m))) = false ->
  unfinished_through timing os ts m = true ->
  snd (run (frames ts) m) = []
  ∧ truthy (finished (state (engine (fst (run (frames ts) m))))) = false
  ∧ init (fst (run (frames ts) m)) = init m
  ∧ rendered_isVisible (fst (run (frames ts) m)) = rendered_isVisible m
  ∧ animationState (fst (run (frames ts) m)) = animationState m
  ∧ captured_onModalShow (fst (run (frames ts) m)) = captured_onModalShow m
  ∧ captured_onModalHide (fst (run (frames ts) m)) = captured_onModalHide m.
Proof.
  revert m. induction ts as [|t ts IH]; intros m H0 Hu; simpl in *; [done|].
  apply andb_true_iff in Hu as [Hf Hu]. apply negb_true_iff in Hf.
  destruct (IH _ Hf Hu) as (He & Hfin & Hi & Hr & Ha & Hs & Hh).
  destruct (Modal_frame_keeps t m) as (Ki & Kr & Ka & Ks & Kh).
  rewrite (Modal_frame_unfinished t m Hf), He. simpl.
  repeat split; congruence.
Qed.

(** C3. Take a run towards [s] whose flag is clear, frames [before]
    none of which sets the flag, and a frame [now] which does.  Over
    these frames and any frames [after], the callback of [s] is called
    once, on [now], which also stops the clock, and nothing at all
    happens on the frames after it.  Whenever a signal starts a run,
    the flag the run starts with is zero. *)
Theorem completion_called_exactly_once (m : ModalInstance) (s : State)
    (before after : list Q) (now : Q) :
  animationState m = State_value s ->
  truthy (finished (state (engine m))) = false ->
  unfinished_through timing os before m = true ->
  truthy (finished (state (engine
    (fst (run (frames (before ++ [now])) m))))) = true ->
  snd (run (frames (before ++ now :: after)) m) = completion_effects m s
  ∧ snd (run (frames (before ++ [now])) m) = completion_effects m s
  ∧ fst (run (frames (before ++ now :: after)) m)
    = fst (run (frames (before ++ [now])) m)
  ∧ clockRunning (engine (fst (run (frames (before ++ now :: after)) m)))
    = false
  ∧ (∀ s' e,
        Qeq_bool (toValue e) (target_of (State_value s')) = false ->
        finished (state (observe_signal (State_value s') e)) = 0%Q).
Proof.
  intros Hs H0 Hu Hdone.
  destruct (unfinished_frames before m H0 Hu) as (He & Hfin & _ & _ & Ha & Hsh & Hhi).
  set (mb := fst (run (frames before) m)) in *.
  unfold frames in *. rewrite map_app in Hdone |- *.
  rewrite map_app. rewrite !Modal_run_app in *. fold (frames before) in *.
  fold mb in Hdone |- *. simpl in Hdone |- *.
  assert (Hs' : animationState mb = State_value s) by congruence.
  destruct (Modal_frame_completes now mb s Hs' Hfin Hdone) as (Hc & Hp & Hr).
  fold (frames after). rewrite (Modal_frames_idle after _ Hp Hr). simpl.
  rewrite He, Hc, !app_nil_r. simpl.
  assert (Hce : completion_effects mb s = completion_effects m s).
  { unfold completion_effects. by rewrite Hsh, Hhi. }
  repeat split; try done.
  intros s' e H. by rewrite observe_signal_restart.
Qed.

Lemma Modal_frame_no_show (t : Q) (m : ModalInstance) (f : Callback) :
  animationState m ≠ State_value BEGAN ->
  ¬ In (CallOnModalShow f) (snd (frame_at t m)).
Proof.
  intros Hg. unfold Modal_frame.
  destruct (pending m || clockRunning (engine m)); simpl; [|tauto].
  rewrite (completion_call_other_signal _ _ BEGAN) by done. simpl.
  unfold completion_call.
  destruct (captured_onModalHide m); [|tauto].
  match goal with |- context [if ?c then _ else _] => destruct c end;
    simpl; [|tauto].
  intros [H|[]]. discriminate.
Qed.

Lemma Modal_frame_on_target (t : Q) (m : ModalInstance) (s : State) :
  animationState m = State_value s ->
  toValue (engine m) = target_of (State_value s) ->
  toValue (engine (fst (frame_at t m))) = target_of (State_value s).
Proof.
  intros Hg Ht. unfold Modal_frame.
  destruct (pending m || clockRunning (engine m)); simpl; [|done].
  rewrite Hg, observe_signal_on_target; [done|].
  rewrite Ht. apply Qeq_bool_refl.
Qed.

Lemma Modal_frames_on_target (ts : list Q) (m : ModalInstance) (s : State) :
  animationState m = State_value s ->
  toValue (engine m) = target_of (State_value s) ->
  toValue (engine (fst (run (frames ts) m))) = target_of (State_value s)
  ∧ animationState (fst (run (frames ts) m)) = State_value s.
Proof.
  revert m. induction ts as [|t ts IH]; intros m Hg Ht; simpl; [done|].
  destruct (Modal_frame_keeps t m) as (_ & _ & Ka & _).
  apply IH; [congruence|]. by apply Modal_frame_on_target.
Qed.

Lemma Modal_frames_no_show (ts : list Q) (m : ModalInstance) (f : Callback) :
  animationState m ≠ State_value BEGAN ->
  ¬ In (CallOnModalShow f) (snd (run (frames ts) m)).
Proof.
  revert m. induction ts as [|t ts IH]; intros m Hg; simpl; [tauto|].
  destruct (Modal_frame_keeps t m) as (_ & _ & Ka & _).
  rewrite in_app_iff. intros [H|H].
  - by apply (Modal_frame_no_show t m f).
  - apply (IH (fst (frame_at t m))); [congruence|done].
Qed.

Lemma signal_unassigned_dec (m : ModalInstance) :
  animationState m = -1 ∨ animationState m ≠ -1.
Proof. destruct (decide (animationState m = -1)); auto. Qed.

Lemma Modal_mount_fresh (p : ModalProps) :
  Modal_fresh (modal_isVisible p) (Modal_mount p).
Proof. repeat split; reflexivity. Qed.

Lemma fresh_frame (p0 : option bool) (t : Q) (m : ModalInstance) :
  timing_contract timing (duration os) ->
  Modal_fresh p0 m ->
  Modal_fresh p0 (fst (frame_at t m))
  ∧ snd (frame_at t m) = []
  ∧ pending (fst (frame_at t m)) = false.
Proof.
  intros Hc (Hi & Hg & Hv & Ht & Hr & Hp & Hfirst).
  unfold Modal_frame. rewrite Hr, orb_false_r.
  destruct (pending m) eqn:Hpend; simpl;
    [|split; [|done]; repeat split; try done; congruence].
  destruct (Hfirst eq_refl) as [Htime Hframe].
  simpl. rewrite Hg, observe_signal_unassigned.
  rewrite !completion_call_other_signal by done.
  repeat split; simpl; try done.
  - rewrite Hr. by destruct (truthy _).
  - rewrite (contract_first _ _ Hc) by done. exact Hp.
Qed.

Lemma fresh_run (p0 : option bool) (ins : list ModalInput) (m : ModalInstance) :
  timing_contract timing (duration os) ->
  renders_only p0 ins = true ->
  Modal_fresh p0 m ->
  Modal_fresh p0 (fst (run ins m)) ∧ snd (run ins m) = [].
Proof.
  intros Hc. revert m. induction ins as [|i ins IH]; intros m Hro Hm; [done|].
  simpl in Hro. apply andb_true_iff in Hro as [Hi Hro]. simpl.
  destruct i as [v|t]; simpl.
  - apply bool_decide_eq_true in Hi. subst v.
    assert (Hsame : Modal_update p0 m = m).
    { unfold Modal_update. destruct Hm as (_ & _ & Hv & _).
      by rewrite decide_True. }
    rewrite Hsame. by apply IH.
  - destruct (fresh_frame p0 t m Hc Hm) as (Hm' & He & _).
    rewrite He. simpl. by apply IH.
Qed.

(** C9. The first render creates [animationState] with the value -1,
    and the first run of the effect does not assign it.  A renderer
    mounted with [isVisible = true] therefore keeps the signal at -1,
    shows progress 0 and calls nothing, through any frames and any
    renders that pass [isVisible = true] again, while its container
    has [pointerEvents = 'auto']; the first render with another
    [isVisible] assigns the signal. *)
Theorem mounted_visible_stays_at_zero (p : ModalProps) (ins : list ModalInput) :
  timing_contract timing (duration os) ->
  modal_isVisible p = Some true ->
  renders_only (Some true) ins = true ->
  let m := fst (run ins (Modal_mount p)) in
  animationState (Modal_render_first p) = -1
  ∧ animationState (Modal_mount p) = -1
  ∧ animationState m = -1
  ∧ progress m = 0%Q
  ∧ pointerEvents m = auto_events
  ∧ snd (run ins (Modal_mount p)) = []
  ∧ (∀ v, v ≠ Some true ->
       animationState (Modal_update v m) = State_value END
       ∧ pending (Modal_update v m) = true).
Proof.
  intros Hc Hv Hro. simpl.
  pose proof (Modal_mount_fresh p) as Hfresh. rewrite Hv in Hfresh.
  destruct (fresh_run (Some true) ins _ Hc Hro Hfresh)
    as ((Hi & Hg & Hr & Ht & Hrun & Hp & _) & He).
  repeat split; try done.
  - by apply interpolate_clamp_zero.
  - unfold pointerEvents. by rewrite Hr.
  - unfold Modal_update. rewrite Hr, decide_False by done.
    unfold Modal_effect. simpl. rewrite Hi.
    by destruct v as [[]|].
  - unfold Modal_update. rewrite Hr, decide_False by done.
    unfold Modal_effect. simpl. by rewrite Hi.
Qed.

(** *** The invariant of the renderer *)

Lemma restart_timing_facts (target pos t : Q) :
  timing_contract timing (duration os) ->
  let st' := timing t (duration os) target (mkTiming 0%Q pos 0%Q 0%Q) in
  time st' = t
  ∧ (0 <= frameTime st')%Q
  ∧ (frameTime st' < duration os)%Q
  ∧ truthy (finished st') = false.
Proof.
  intros Hc. simpl.
  set (st := mkTiming 0%Q pos 0%Q 0%Q).
  assert (Hn : (timing_newFrameTime t st == 0)%Q)
    by (apply newFrameTime_first; reflexivity).
  pose proof (duration_pos os) as Hd.
  destruct (contract_clock _ _ Hc t target st) as [Ht Hf].
  rewrite Ht, Hf, (contract_running _ _ Hc) by lra.
  repeat split; lra.
Qed.

Lemma continue_timing_facts (target t T : Q) (st : TimingState) :
  timing_contract timing (duration os) ->
  (0 < time st)%Q -> (time st <= T)%Q -> (T <= t)%Q ->
  let st' := timing t (duration os) target st in
  time st' = t
  ∧ (frameTime st + (t - T) <= frameTime st')%Q
  ∧ ((duration os <= frameTime st')%Q ∧ position st' = target
       ∧ truthy (finished st') = true
     ∨ (frameTime st' < duration os)%Q ∧ finished st' = finished st).
Proof.
  intros Hc H0 HT Ht. simpl.
  pose proof (newFrameTime_later t st H0) as Hn.
  destruct (contract_clock _ _ Hc t target st) as [Htime Hf].
  rewrite Htime, Hf.
  split; [done|]. split; [lra|].
  destruct (Qlt_le_dec (timing_newFrameTime t st) (duration os)) as [Hlt|Hle].
  - right. split; [done|]. by apply (contract_running _ _ Hc).
  - left. destruct (contract_done _ _ Hc t target st Hle) as [Hp Hfin].
    rewrite Hp, Hfin. done.
Qed.

Lemma signal_of_State (v : option bool) :
  ∃ s, signal_of v = State_value s.
Proof. unfold signal_of. by eexists. Qed.

Lemma target_of_State (s : State) :
  target_of (State_value s) = 0%Q ∨ target_of (State_value s) = 1%Q.
Proof. destruct s; [by right|by left]. Qed.

Lemma Modal_frame_pending (t : Q) (m : ModalInstance) :
  pending (fst (frame_at t m)) = false.
Proof.
  unfold Modal_frame.
  destruct (pending m || clockRunning (engine m)) eqn:E; [done|].
  simpl. by apply orb_false_iff in E as [-> _].
Qed.

Lemma inv_weaken (p0 : option bool) (T T' : Q) (m : ModalInstance) :
  (T <= T')%Q ->
  Modal_inv (duration os) p0 T m -> Modal_inv (duration os) p0 T' m.
Proof.
  intros HT [Hf|Hi Hg Ht Hr Hp|Hi Hg Ht H0 HT0 Hf Hrun Hstop Hpend].
  - by apply inv_fresh.
  - by apply inv_scheduled.
  - apply inv_run; try done. lra.
Qed.

Lemma inv_update (p0 : option bool) (T : Q) (v : option bool) (m : ModalInstance) :
  Modal_inv (duration os) p0 T m ->
  Modal_inv (duration os) p0 T (Modal_update v m).
Proof.
  intros Hinv. unfold Modal_update.
  destruct (decide (v = rendered_isVisible m)) as [_|Hne]; [done|].
  destruct Hinv as [(Hi & Hg & Hv & Ht & Hr & Hp & Hfirst)
                   |Hi Hg Ht Hr Hp|Hi Hg Ht H0 HT0 Hf Hrun Hstop Hpend];
    unfold Modal_effect; simpl; rewrite Hi; simpl.
  - by apply inv_scheduled.
  - by apply inv_scheduled.
  - by apply inv_run.
Qed.

(** The frame that first sees a signal whose target the engine is not
    on starts a run. *)
Lemma inv_frame_restart (p0 : option bool) (t : Q) (m : ModalInstance) (s : State) :
  timing_contract timing (duration os) ->
  (0 < t)%Q ->
  init m = true ->
  animationState m = signal_of (rendered_isVisible m) ->
  animationState m = State_value s ->
  pending m = true ->
  Qeq_bool (toValue (engine m)) (target_of (State_value s)) = false ->
  Modal_inv (duration os) p0 t (fst (frame_at t m)).
Proof.
  intros Hc Ht Hi Hg Hs Hp Hne.
  unfold Modal_frame. rewrite Hp. simpl.
  rewrite Hs, (observe_signal_restart s _ Hne). simpl.
  destruct (restart_timing_facts (target_of (State_value s))
              (position (state (engine m))) t Hc) as (Htime & Hf0 & Hfd & Hfin).
  simpl in *. rewrite Hfin.
  apply inv_run; simpl; try done; rewrite ?Htime; try lra.
  - congruence.
  - apply target_of_State.
Qed.

Lemma inv_frame (p0 : option bool) (T t : Q) (m : ModalInstance) :
  timing_contract timing (duration os) ->
  (T <= t)%Q -> (0 < t)%Q ->
  Modal_inv (duration os) p0 T m ->
  Modal_inv (duration os) p0 t (fst (frame_at t m))
  ∧ (pending m = false -> clockRunning (engine m) = true ->
     (frameTime (state (engine m)) + (t - T)
      <= frameTime (state (engine (fst (frame_at t m)))))%Q).
Proof.
  intros Hc HT Ht Hinv.
  destruct Hinv as [Hf|Hi Hg Htv Hr Hp|Hi Hg Htv H0 HT0 Hf Hrun Hstop Hpend].
  - destruct (fresh_frame p0 t m Hc Hf) as (Hf' & _).
    split; [by apply inv_fresh|].
    destruct Hf as (_ & _ & _ & _ & Hr & _). congruence.
  - split; [|congruence].
    destruct (signal_of_State (rendered_isVisible m)) as [s Hs].
    apply (inv_frame_restart p0 t m s); try done; [congruence|].
    rewrite Htv. by destruct s.
  - destruct (signal_of_State (rendered_isVisible m)) as [s Hs].
    rewrite Hs in Hg.
    destruct (Qeq_bool (toValue (engine m)) (target_of (State_value s))) eqn:E.
    + (* the engine is on the signalled target *)
      assert (Etv : toValue (engine m) = target_of (State_value s)).
      { destruct Htv as [Htv|Htv]; rewrite Htv in E |- *; by destruct s. }
      unfold Modal_frame.
      destruct (pending m || clockRunning (engine m)) eqn:Ev.
      * simpl. rewrite Hg, (observe_signal_on_target s _ E).
        destruct (continue_timing_facts (toValue (engine m)) t T
                    (state (engine m)) Hc H0 HT0 HT)
          as (Htime & Hgrow & Hcase).
        simpl in *.
        split; [|done].
        destruct Hcase as [(Hle & Hpos & Hfin)|(Hlt & Hfin)].
        -- rewrite Hfin.
           apply inv_run; simpl; try done; rewrite ?Htime; try lra;
             try congruence.
        -- destruct (clockRunning (engine m)) eqn:Er.
           ++ destruct (Hrun eq_refl) as [Hfalse _].
              rewrite Hfin, Hfalse.
              apply inv_run; simpl; try done; rewrite ?Htime; try lra;
                try congruence.
              intros _. by rewrite Hfin.
           ++ destruct (Hstop eq_refl) as [_ Hle]. lra.
      * simpl. apply orb_false_iff in Ev as [Ep Er].
        split; [|congruence].
        apply (inv_weaken p0 T t); [done|]. by apply inv_run; rewrite ?Hs.
    + (* the signal changed since the last evaluation *)
      assert (Hp : pending m = true).
      { apply Hpend. rewrite Hg. intros Heq. rewrite Heq in E.
        by rewrite Qeq_bool_refl in E. }
      split; [|congruence].
      apply (inv_frame_restart p0 t m s); try done. by rewrite Hg, Hs.
Qed.

Lemma ticks_after_cons (T t : Q) (ts : list Q) :
  ticks_after T (t :: ts) = true ->
  (T <= t)%Q ∧ (0 < t)%Q ∧ ticks_after t ts = true.
Proof.
  simpl. intros H.
  apply andb_true_iff in H as [H Hts]. apply andb_true_iff in H as [HT Ht].
  apply Qle_bool_iff in HT. apply negb_true_iff in Ht.
  repeat split; try done.
  destruct (Qlt_le_dec 0 t) as [|Hle]; [done|].
  apply Qle_bool_iff in Hle. congruence.
Qed.

Lemma last_cons_default (t T : Q) (ts : list Q) :
  List.last (t :: ts) T = List.last ts t.
Proof.
  revert t T. induction ts as [|a ts IH]; intros t T; [reflexivity|].
  change (List.last (t :: a :: ts) T) with (List.last (a :: ts) T).
  by rewrite (IH a T), (IH a t).
Qed.

(** Once the block has seen the signal, frames that cover what is left
    of the duration bring the run to its end. *)
Lemma frames_finish_run (p0 : option bool) (ts : list Q) (T : Q)
    (m : ModalInstance) (s : State) :
  timing_contract timing (duration os) ->
  Modal_inv (duration os) p0 T m ->
  pending m = false ->
  animationState m = State_value s ->
  ticks_after T ts = true ->
  (clockRunning (engine m) = true ->
   (duration os <= frameTime (state (engine m)) + (List.last ts T - T))%Q) ->
  let m' := fst (run (frames ts) m) in
  clockRunning (engine m') = false
  ∧ Modal_inv (duration os) p0 (List.last ts T) m'
  ∧ pending m' = false
  ∧ animationState m' = State_value s.
Proof.
  intros Hc. revert T m.
  induction ts as [|t ts IH]; intros T m Hinv Hp Hg Hticks Hleft.
  - simpl. repeat split; try done.
    destruct (clockRunning (engine m)) eqn:Er; [|done].
    specialize (Hleft eq_refl). simpl in Hleft.
    destruct Hinv as [(_ & _ & _ & _ & Hr & _)|? ? ? ? Hp'|? ? ? ? ? ? Hrun _ _];
      [congruence|congruence|].
    destruct (Hrun Er) as [_ Hlt]. lra.
  - destruct (ticks_after_cons T t ts Hticks) as (HT & Ht & Hts).
    destruct (inv_frame p0 T t m Hc HT Ht Hinv) as [Hinv' Hgrow].
    destruct (Modal_frame_keeps t m) as (_ & _ & Ka & _).
    rewrite last_cons_default in Hleft |- *. simpl.
    apply IH; try done.
    + apply Modal_frame_pending.
    + congruence.
    + intros Er'.
      destruct (clockRunning (engine m)) eqn:Er.
      * specialize (Hleft eq_refl). specialize (Hgrow Hp eq_refl). lra.
      * rewrite (Modal_frame_idle t m Hp Er) in Er'. simpl in Er'. congruence.
Qed.

Lemma settled_position (p0 : option bool) (T : Q) (m : ModalInstance) (s : State) :
  Modal_inv (duration os) p0 T m ->
  pending m = false ->
  clockRunning (engine m) = false ->
  animationState m = State_value s ->
  position (state (engine m)) = target_of (State_value s).
Proof.
  intros Hinv Hp Hr Hg.
  destruct Hinv as [(_ & Hg' & _)|? ? ? ? Hp'|_ _ Htv _ _ _ _ Hstop Hpend].
  - rewrite Hg in Hg'. by destruct s.
  - congruence.
  - destruct (Hstop Hr) as [-> _]. rewrite Hg in Hpend.
    destruct Htv as [Htv|Htv]; rewrite Htv in Hpend |- *; destruct s;
      try done; (assert (pending m = true) by (by apply Hpend)); congruence.
Qed.

Lemma Modal_frames_keep_rendered (ts : list Q) (m : ModalInstance) :
  rendered_isVisible (fst (run (frames ts) m)) = rendered_isVisible m.
Proof.
  revert m. induction ts as [|t ts IH]; intros m; [done|].
  simpl. rewrite IH. by destruct (Modal_frame_keeps t m) as (_ & -> & _).
Qed.

Lemma Modal_settles (p0 : option bool) (fs : list Q) (T : Q)
    (m : ModalInstance) (s : State) :
  timing_contract timing (duration os) ->
  Modal_inv (duration os) p0 T m ->
  animationState m = State_value s ->
  ticks_after T fs = true ->
  spans (duration os) fs = true ->
  let m' := fst (run (frames fs) m) in
  progress m' = target_of (State_value s)
  ∧ animationState m' = State_value s
  ∧ rendered_isVisible m' = rendered_isVisible m.
Proof.
  intros Hc Hinv Hg Hticks Hspan.
  destruct fs as [|t0 fs]; [discriminate|]. simpl in Hspan |- *.
  apply Qle_bool_iff in Hspan.
  destruct (ticks_after_cons T t0 fs Hticks) as (HT & Ht & Hts).
  destruct (inv_frame p0 T t0 m Hc HT Ht Hinv) as [Hinv1 _].
  destruct (Modal_frame_keeps t0 m) as (_ & Kr & Ka & _).
  pose proof (Modal_frame_pending t0 m) as Hp1.
  set (m1 := fst (frame_at t0 m)) in *.
  assert (Hg1 : animationState m1 = State_value s) by congruence.
  assert (Hleft : clockRunning (engine m1) = true ->
            (duration os <= frameTime (state (engine m1))
                            + (List.last fs t0 - t0))%Q).
  { intros _.
    destruct Hinv1 as [(_ & Hg' & _)|? ? ? ? Hp'|_ _ _ _ _ Hf _ _ _].
    - rewrite Hg1 in Hg'. by destruct s.
    - congruence.
    - lra. }
  destruct (frames_finish_run p0 fs t0 m1 s Hc Hinv1 Hp1 Hg1 Hts Hleft)
    as (Hr & Hinv2 & Hp2 & Hg2).
  split; [|split; [done|]].
  - unfold progress.
    rewrite (settled_position p0 _ _ s Hinv2 Hp2 Hr Hg2). by destruct s.
  - rewrite <- Kr. apply Modal_frames_keep_rendered.
Qed.

Lemma renders_only_frames (v : option bool) (ts : list Q) :
  renders_only v (frames ts) = true.
Proof. induction ts as [|t ts IH]; [done|]. exact IH. Qed.

Lemma Modal_update_rendered (v : option bool) (m : ModalInstance) :
  rendered_isVisible (Modal_update v m) = v.
Proof.
  unfold Modal_update.
  by destruct (decide (v = rendered_isVisible m)) as [->|_].
Qed.

(** A show run is under way ([BEGAN] signalled, target 1, flag
    clear) and no frame of [before] completes it; then the renderer is
    re-rendered with [isVisible = false] and frames go on.  The show
    callback is called on none of these frames.  On the first frame
    after the change the block hands [timing] a fresh run (flag, time
    and frame time zero) towards target 0 whose position is the one
    the show run was interrupted at, and that frame leaves the
    position there; the target then stays 0, and once the frames after
    the change cover the duration the position is 0. *)
Lemma reversal_at_renderer (m : ModalInstance)
    (before after : list Q) (now : Q) :
  timing_contract timing (duration os) ->
  init m = true ->
  rendered_isVisible m = Some true ->
  animationState m = State_value BEGAN ->
  toValue (engine m) = 1%Q ->
  truthy (finished (state (engine m))) = false ->
  unfinished_through timing os before m = true ->
  let interrupted := fst (run (frames before) m) in
  let reversed := fst (run [Render (Some false); Frame now] interrupted) in
  let r := run (frames before ++ Render (Some false) :: Frame now :: frames after) m in
  (∀ f, ¬ In (CallOnModalShow f) (snd r))
  ∧ state (engine reversed)
    = timing now (duration os) 0%Q
        (mkTiming 0%Q (position (state (engine interrupted))) 0%Q 0%Q)
  ∧ (position (state (engine reversed))
     == position (state (engine interrupted)))%Q
  ∧ toValue (engine reversed) = 0%Q
  ∧ clockRunning (engine reversed) = true
  ∧ toValue (engine (fst r)) = 0%Q
  ∧ (ticks_after 0%Q (now :: after) = true ->
     spans (duration os) (now :: after) = true ->
     position (state (engine (fst r))) = 0%Q
     ∧ clockRunning (engine (fst r)) = false).
Proof.
  intros Hc Hi Hv Hg Ht H0 Hu. simpl.
  destruct (unfinished_frames before m H0 Hu) as (He & Hfin & Hi' & Hv' & Hg' & _).
  destruct (Modal_frames_on_target before m BEGAN Hg Ht) as (Ht' & _).
  rewrite Modal_run_app, He. simpl.
  set (mb := fst (run (frames before) m)) in *.
  rewrite Hi, Hv, Hg in *.
  assert (Hup : Modal_update (Some false) mb
                = mkModal true (Some false) (State_value END) true (engine mb)
                    (captured_onModalShow mb) (captured_onModalHide mb)).
  { unfold Modal_update. rewrite Hv'.
    destruct (decide (Some false = Some true)) as [E|_]; [discriminate|].
    unfold Modal_effect. simpl. by rewrite Hi'. }
  rewrite Hup.
  set (mu := mkModal true (Some false) (State_value END) true (engine mb) _ _).
  assert (Hobs : observe_signal 1 (engine mb) = restart 0%Q (engine mb)).
  { apply (observe_signal_restart END). by rewrite Ht'. }
  assert (Hst : state (engine (fst (frame_at now mu)))
                = timing now (duration os) 0%Q
                    (mkTiming 0%Q (position (state (engine mb))) 0%Q 0%Q)).
  { unfold Modal_frame, mu. simpl. by rewrite Hobs. }
  assert (Htv : toValue (engine (fst (frame_at now mu))) = 0%Q).
  { unfold Modal_frame, mu. simpl. by rewrite Hobs. }
  assert (Hrun : clockRunning (engine (fst (frame_at now mu))) = true).
  { unfold Modal_frame, mu. simpl. rewrite Hobs. simpl.
    rewrite (contract_running _ _ Hc).
    - done.
    - rewrite newFrameTime_first by done. apply duration_pos. }
  assert (Hg2 : animationState (fst (frame_at now mu)) = State_value END).
  { by destruct (Modal_frame_keeps now mu) as (_ & _ & -> & _). }
  split; [|split; [|split; [|split; [|split; [|split]]]]]; try done.
  - intros f. rewrite in_app_iff. intros [H|H].
    + apply (Modal_frame_no_show now mu f); done.
    + apply (Modal_frames_no_show after (fst (frame_at now mu)) f); [|done].
      by rewrite Hg2.
  - rewrite Hst.
    apply (contract_first _ _ Hc now 0%Q
             (mkTiming 0%Q (position (state (engine mb))) 0%Q 0%Q));
      reflexivity.
  - by apply (Modal_frames_on_target after _ END).
  - intros Hticks Hspan.
    destruct (ticks_after_cons _ _ _ Hticks) as (_ & Hnow & Hafter).
    simpl in Hspan. apply Qle_bool_iff in Hspan.
    assert (Hinv : Modal_inv (duration os) (Some true) now (fst (frame_at now mu))).
    { apply (inv_frame_restart (Some true) now mu END); try done.
      simpl. by rewrite Ht'. }
    assert (Hleft : clockRunning (engine (fst (frame_at now mu))) = true ->
              (duration os <= frameTime (state (engine (fst (frame_at now mu))))
                              + (List.last after now - now))%Q).
    { intros _. rewrite Hst.
      destruct (restart_timing_facts 0%Q (position (state (engine mb))) now Hc)
        as (_ & Hf0 & _). simpl in Hf0. lra. }
    destruct (frames_finish_run (Some true) after now _ END Hc Hinv
                (Modal_frame_pending now mu) Hg2 Hafter Hleft)
      as (Hstop & Hinv' & Hp' & Hg3).
    split; [|done].
    by rewrite (settled_position (Some true) _ _ END Hinv' Hp' Hstop Hg3).
Qed.

(** *** One dialog inside the provider *)

Section OneDialog.

Variable id : string.

Abbreviation dialog_step := (Dialog_step timing os id).
Abbreviation dialog_run := (Dialog_run timing os id).

Lemma obj_get_keys {V} (key : string) (o : JsObject V) :
  In key (obj_keys o) -> ∃ v, obj_get key o = Some v.
Proof.
  induction o as [|[k w] o IH]; simpl; [tauto|].
  intros [->|H].
  - rewrite String.eqb_refl. by eexists.
  - destruct (String.eqb k key); [by eexists|auto].
Qed.

Lemma rendered_element_props (st : ProviderState) (p : ModalProps) :
  rendered_element id st = Some p ->
  modal_isVisible p = obj_get id (visibleView st)
  ∧ In id (obj_keys (views st)).
Proof.
  unfold rendered_element, ReModalProvider, obj_keys. simpl.
  induction (views st) as [|[k w] o IH]; simpl; [discriminate|].
  destruct (String.eqb_spec k id) as [->|Hk].
  - intros [= <-]. simpl. split; [done|by left].
  - intros H. destruct (IH H). split; [done|by right].
Qed.

Lemma rendered_element_mounted (st : ProviderState) :
  In id (obj_keys (views st)) ->
  ∃ p, rendered_element id st = Some p
       ∧ modal_isVisible p = obj_get id (visibleView st).
Proof.
  intros Hin. destruct (obj_get_keys id _ Hin) as [view Hv].
  eexists. split; [by apply rendered_element_lookup|done].
Qed.

Lemma RegistryCall_keeps_views (c : RegistryCall) (st : ProviderState) :
  In id (obj_keys (views st)) ->
  In id (obj_keys (views (snd (RegistryCall_run c st)))).
Proof.
  destruct c; simpl; try done. apply obj_keys_set_mono.
Qed.

Lemma RegistryCall_visible (c : RegistryCall) (st : ProviderState) :
  obj_get id (visibleView (snd (RegistryCall_run c st)))
  = last_setVisible id [Call c] (obj_get id (visibleView st)).
Proof.
  destruct c as [| |ctx key v]; simpl; try done.
  destruct (String.eqb_spec key id) as [->|Hk].
  - apply obj_get_set_eq.
  - by apply obj_get_set_ne.
Qed.

Lemma last_setVisible_acc (ins : list DialogInput) (acc : option bool) :
  last_setVisible id ins acc
  = match last_setVisible id ins None with
    | Some v => Some v
    | None => acc
    end.
Proof.
  revert acc. induction ins as [|i ins IH]; intros acc; [done|].
  destruct i as [[| |ctx key v]| |]; simpl; try apply IH.
  destruct (String.eqb key id); [|apply IH].
  rewrite (IH (Some v)), (IH None).
  by destruct (last_setVisible id ins None).
Qed.

Lemma Dialog_run_app (a b : list DialogInput) (d : Dialog) :
  dialog_run (a ++ b) d
  = (fst (dialog_run b (fst (dialog_run a d))),
     snd (dialog_run a d) ++ snd (dialog_run b (fst (dialog_run a d)))).
Proof.
  revert d. induction a as [|i a IH]; intros d; simpl.
  - by destruct (dialog_run b d).
  - rewrite IH. simpl. by rewrite app_assoc.
Qed.

Lemma Dialog_run_frames (fs : list Q) (d : Dialog) :
  dialog_run (map AnimationFrame fs) d
  = (mkDialog (registry d) (fst (run (frames fs) (renderer d))),
     snd (run (frames fs) (renderer d))).
Proof.
  revert d. induction fs as [|t fs IH]; intros d; simpl.
  - by destruct d.
  - by rewrite IH.
Qed.

(** Registry calls, renders and frames keep the renderer's invariant
    and the identity's entry, and leave in the visibility table what
    the last [setVisible] for the identity stored. *)
Lemma Dialog_run_inv (p0 : option bool) (ins : list DialogInput)
    (rest : list Q) (T : Q) (d : Dialog) :
  timing_contract timing (duration os) ->
  Modal_inv (duration os) p0 T (renderer d) ->
  In id (obj_keys (views (registry d))) ->
  ticks_after T (timestamps ins ++ rest) = true ->
  let d' := fst (dialog_run ins d) in
  (∃ T', Modal_inv (duration os) p0 T' (renderer d')
         ∧ ticks_after T' rest = true)
  ∧ In id (obj_keys (views (registry d')))
  ∧ obj_get id (visibleView (registry d'))
    = last_setVisible id ins (obj_get id (visibleView (registry d))).
Proof.
  intros Hc. revert T d.
  induction ins as [|i ins IH]; intros T d Hinv Hin Hticks.
  - simpl. split; [by exists T|done].
  - destruct i as [c| |t].
    + change (fst (dialog_run (Call c :: ins) d))
        with (fst (dialog_run ins
                (mkDialog (snd (RegistryCall_run c (registry d))) (renderer d)))).
      destruct (IH T (mkDialog (snd (RegistryCall_run c (registry d))) (renderer d)))
        as (HT & Hin' & Hvis); try done.
      { by apply RegistryCall_keeps_views. }
      split; [done|]. split; [done|].
      rewrite Hvis. simpl registry. rewrite RegistryCall_visible.
      by destruct c.
    + simpl. destruct (rendered_element id (registry d)) as [p|]; simpl.
      * apply (IH T (mkDialog (registry d)
                       (Modal_update (modal_isVisible p) (renderer d))));
          try done.
        simpl. by apply inv_update.
      * by apply (IH T d).
    + simpl in Hticks.
      destruct (ticks_after_cons T t _ Hticks) as (HT & Ht & Hts).
      destruct (inv_frame p0 T t (renderer d) Hc HT Ht Hinv) as [Hinv' _].
      simpl.
      by apply (IH t (mkDialog (registry d) (fst (frame_at t (renderer d))))).
Qed.

(** C4, as the code has it. Start from the renderer the provider
    mounts for [id]; let any registry calls, provider renders and
    frames follow, of which [setVisible(id, v)] is the last call for
    [id]; let the provider then render again (a [setVisible] call
    only stores the value) and let frames covering the duration
    elapse.  Then [v] is the visibility stored and the one passed to
    the renderer, and the rendered progress is 1 for [v = true] and 0
    for [v = false] - unless the signal is still the initial -1, as it
    is for a renderer first rendered with [isVisible = true] that has
    seen no other value, in which case the progress is 0.  For a
    renderer that was not first rendered with [isVisible = true] the
    progress always follows [v]. *)
Theorem settled_progress_follows_last_setVisible (st0 : ProviderState)
    (p0 : ModalProps) (ins : list DialogInput) (fs : list Q) (v : bool) :
  timing_contract timing (duration os) ->
  rendered_element id st0 = Some p0 ->
  last_setVisible id ins None = Some v ->
  ticks_after 0%Q (timestamps ins ++ fs) = true ->
  spans (duration os) fs = true ->
  let d := fst (dialog_run (ins ++ ProviderRender :: map AnimationFrame fs)
                  (mkDialog st0 (Modal_mount p0))) in
  obj_get id (visibleView (registry d)) = Some v
  ∧ rendered_isVisible (renderer d) = Some v
  ∧ progress (renderer d)
    = (if animationState (renderer d) =? -1 then 0%Q
       else if v then 1%Q else 0%Q)
  ∧ (modal_isVisible p0 ≠ Some true ->
     progress (renderer d) = if v then 1%Q else 0%Q).
Proof.
  intros Hc Hel Hlast Hticks Hspan.
  destruct (rendered_element_props st0 p0 Hel) as [_ Hin0].
  destruct (Dialog_run_inv (modal_isVisible p0) ins fs 0%Q
              (mkDialog st0 (Modal_mount p0)) Hc) as ((T & Hinv & HT) & Hin & Hvis);
    try done.
  { apply inv_fresh, Modal_mount_fresh. }
  rewrite last_setVisible_acc, Hlast in Hvis. simpl in Hvis.
  cbv zeta. rewrite Dialog_run_app. cbn [fst].
  set (d1 := fst (dialog_run ins (mkDialog st0 (Modal_mount p0)))) in *.
  destruct (rendered_element_mounted (registry d1) Hin) as (p & Hp & Hpv).
  rewrite Hvis in Hpv.
  change (dialog_run (ProviderRender :: map AnimationFrame fs) d1)
    with (let r := dialog_step ProviderRender d1 in
          let r' := dialog_run (map AnimationFrame fs) (fst r) in
          (fst r', snd r ++ snd r')).
  cbn [Dialog_step]. rewrite Hp, Hpv. cbv zeta. cbn [fst snd].
  rewrite Dialog_run_frames. cbn [fst registry renderer].
  set (m2 := Modal_update (Some v) (renderer d1)).
  assert (Hinv2 : Modal_inv (duration os) (modal_isVisible p0) T m2)
    by (by apply inv_update).
  assert (Hr2 : rendered_isVisible m2 = Some v)
    by apply Modal_update_rendered.
  split; [done|].
  destruct (signal_unassigned_dec m2) as [Hfresh|Hsig].
  - (* never signalled *)
    assert (Hf : Modal_fresh (modal_isVisible p0) m2).
    { destruct Hinv2 as [Hf|? Hg|? Hg]; [done| |];
        rewrite Hfresh in Hg; rewrite Hr2 in Hg; by destruct v. }
    destruct (fresh_run (modal_isVisible p0) (frames fs) m2 Hc
                (renders_only_frames _ fs) Hf)
      as ((_ & Hg & Hv & _ & _ & Hpos & _) & _).
    rewrite Hg. simpl.
    rewrite Modal_frames_keep_rendered, Hr2.
    unfold progress. rewrite (interpolate_clamp_zero _ Hpos).
    repeat split; try done.
    intros Hne. rewrite Modal_frames_keep_rendered, Hr2 in Hv.
    destruct v; [congruence|done].
  - (* signalled: the run settles on the target of the signal *)
    assert (Hg : animationState m2 = State_value (if v then BEGAN else END)).
    { destruct Hinv2 as [(_ & Hg & _)|? Hg|? Hg]; [congruence| |];
        rewrite Hr2 in Hg; by destruct v. }
    destruct (Modal_settles (modal_isVisible p0) fs T m2 _ Hc Hinv2 Hg HT Hspan)
      as (Hprog & Hg' & Hv').
    rewrite Hprog, Hg', Hv', Hr2. by destruct v.
Qed.

(** C6. When [id] is already stored as visible, another
    [setVisible(id, true)] leaves the registry as it is: whatever calls,
    renders and frames follow, they go exactly as they would without
    it, and the call itself can do nothing but the auto-close check,
    which calls no show callback.  A render that passes [isVisible =
    true] to a renderer last rendered with [true] does not run its
    effect, so no signal is written and nothing restarts; and in the
    block itself a [BEGAN] signal while the target is already 1 changes
    nothing. *)
Theorem repeated_open_changes_nothing (ctx : IReModalContext) (d : Dialog)
    (rest : list DialogInput) :
  obj_get id (visibleView (registry d)) = Some true ->
  fst (dialog_run (Call (CallSetVisible ctx id true) :: rest) d)
  = fst (dialog_run rest d)
  ∧ snd (dialog_run (Call (CallSetVisible ctx id true) :: rest) d)
    = fst (setVisible ctx id true (registry d)) ++ snd (dialog_run rest d)
  ∧ (∀ f, ¬ In (CallOnModalShow f) (fst (setVisible ctx id true (registry d))))
  ∧ (rendered_isVisible (renderer d) = Some true ->
     dialog_step ProviderRender d = (d, []))
  ∧ (∀ e, Qeq_bool (toValue e) 1%Q = true ->
          observe_signal (State_value BEGAN) e = e).
Proof.
  intros Hvis.
  assert (Hst : mkDialog (snd (setVisible ctx id true (registry d))) (renderer d) = d).
  { unfold setVisible. simpl. rewrite (obj_set_same _ _ _ Hvis).
    by destruct d as [[] ?]. }
  assert (Hrun :
    dialog_run (Call (CallSetVisible ctx id true) :: rest) d
    = (fst (dialog_run rest
              (mkDialog (snd (setVisible ctx id true (registry d))) (renderer d))),
       fst (setVisible ctx id true (registry d))
       ++ snd (dialog_run rest
                 (mkDialog (snd (setVisible ctx id true (registry d))) (renderer d)))))
    by reflexivity.
  rewrite Hrun, Hst.
  split; [done|split; [done|split; [|split]]].
  - intros f. unfold setVisible. simpl.
    set (view := selectedView _ _).
    destruct (onCancel view), (autoCloseWhenOpeningNextDialog view) as [[]|];
      simpl; intros H; repeat destruct H as [H|H]; try discriminate; done.
  - intros Hr. simpl.
    destruct (rendered_element id (registry d)) as [p|] eqn:Hp; [|done].
    destruct (rendered_element_props _ _ Hp) as [Hpv _].
    rewrite Hpv, Hvis. unfold Modal_update. rewrite Hr, decide_True by done.
    by destruct d.
  - intros e He. by apply (observe_signal_on_target BEGAN).
Qed.

(** C2, as the code has it. A show run is under way at the renderer of
    [id] and no frame of [before] completes it; then
    [setVisible(id, false)] is called and the provider renders, which
    is what hands the new visibility to the renderer (the call itself
    only stores it), and frames go on.  The show callback is called at
    no point of this run.  On the first frame after the render the block
    hands [timing] a fresh run (flag, time and frame time zero) towards
    target 0 whose position is the one the show run was interrupted at,
    and that frame leaves the position there; the target then stays 0,
    and once the frames after the render cover the duration the
    position is 0. *)
Theorem reversal_keeps_position (ctx : IReModalContext) (d : Dialog)
    (before after : list Q) (now : Q) :
  timing_contract timing (duration os) ->
  In id (obj_keys (views (registry d))) ->
  init (renderer d) = true ->
  rendered_isVisible (renderer d) = Some true ->
  animationState (renderer d) = State_value BEGAN ->
  toValue (engine (renderer d)) = 1%Q ->
  truthy (finished (state (engine (renderer d)))) = false ->
  unfinished_through timing os before (renderer d) = true ->
  let interrupted := fst (dialog_run (map AnimationFrame before) d) in
  let reversed :=
    fst (dialog_run [Call (CallSetVisible ctx id false); ProviderRender;
                     AnimationFrame now] interrupted) in
  let r :=
    dialog_run (map AnimationFrame before
                ++ Call (CallSetVisible ctx id false) :: ProviderRender
                   :: AnimationFrame now :: map AnimationFrame after) d in
  (∀ f, ¬ In (CallOnModalShow f) (snd r))
  ∧ obj_get id (visibleView (registry reversed)) = Some false
  ∧ state (engine (renderer reversed))
    = timing now (duration os) 0%Q
        (mkTiming 0%Q (position (state (engine (renderer interrupted)))) 0%Q 0%Q)
  ∧ (position (state (engine (renderer reversed)))
     == position (state (engine (renderer interrupted))))%Q
  ∧ toValue (engine (renderer reversed)) = 0%Q
  ∧ clockRunning (engine (renderer reversed)) = true
  ∧ toValue (engine (renderer (fst r))) = 0%Q
  ∧ (ticks_after 0%Q (now :: after) = true ->
     spans (duration os) (now :: after) = true ->
     position (state (engine (renderer (fst r)))) = 0%Q
     ∧ clockRunning (engine (renderer (fst r))) = false).
Proof.
  intros Hc Hin Hi Hv Hg Ht H0 Hu.
  pose proof (reversal_at_renderer (renderer d) before after now
                Hc Hi Hv Hg Ht H0 Hu) as Hm.
  cbv zeta in Hm |- *.
  assert (Hstep : ∀ d1 tail,
    In id (obj_keys (views (registry d1))) ->
    dialog_run (Call (CallSetVisible ctx id false) :: ProviderRender
                :: AnimationFrame now :: map AnimationFrame tail) d1
    = (mkDialog (snd (setVisible ctx id false (registry d1)))
         (fst (run (Render (Some false) :: Frame now :: frames tail) (renderer d1))),
       AssignVisibleView id false
       :: snd (run (Render (Some false) :: Frame now :: frames tail) (renderer d1)))).
  { intros d1 tail Hin1.
    set (st1 := snd (setVisible ctx id false (registry d1))).
    assert (Hin' : In id (obj_keys (views st1))) by done.
    destruct (rendered_element_mounted st1 Hin') as (p & Hp & Hpv).
    assert (Hpf : modal_isVisible p = Some false).
    { rewrite Hpv. unfold st1. simpl. apply obj_get_set_eq. }
    change (dialog_run (Call (CallSetVisible ctx id false) :: ProviderRender
                        :: AnimationFrame now :: map AnimationFrame tail) d1)
      with (let r1 := dialog_step ProviderRender (mkDialog st1 (renderer d1)) in
            let r2 := dialog_run (AnimationFrame now :: map AnimationFrame tail)
                        (fst r1) in
            (fst r2, [AssignVisibleView id false] ++ (snd r1 ++ snd r2))).
    cbv zeta. cbn [Dialog_step registry renderer]. rewrite Hp, Hpf.
    cbn [fst snd].
    change (AnimationFrame now :: map AnimationFrame tail)
      with (map AnimationFrame (now :: tail)).
    rewrite Dialog_run_frames. reflexivity. }
  assert (Hin1 : In id (obj_keys (views (registry
                    (fst (dialog_run (map AnimationFrame before) d)))))).
  { by rewrite Dialog_run_frames. }
  rewrite Dialog_run_app.
  rewrite (Hstep _ after Hin1).
  pose proof (Hstep (fst (dialog_run (map AnimationFrame before) d)) [] Hin1)
    as Hstep0.
  change (map AnimationFrame []) with (@nil DialogInput) in Hstep0.
  rewrite Hstep0. clear Hstep Hstep0.
  rewrite Dialog_run_frames. cbn [fst snd registry renderer].
  rewrite Modal_run_app in Hm. cbn [fst snd] in Hm.
  destruct Hm as (Hshow & Hst & Hpos & Htv & Hrun & Htv' & Hsettle).
  split; [|split; [|done]].
  - intros f Hf. apply (Hshow f).
    rewrite in_app_iff in Hf |- *. destruct Hf as [Hf|[Hf|Hf]]; auto.
    discriminate.
  - simpl. apply obj_get_set_eq.
Qed.

End OneDialog.

End Renderer.

(** ** The claims on sample runs *)

Lemma completion_called_exactly_once_witness :
  let m := sample_signalled in
  let before := [32%Q; 100%Q; 200%Q] in
  let after := [316%Q; 332%Q] in
  let run := Modal_run timing_linear android in
  snd (run (frames (before ++ 300%Q :: after)) m) = completion_effects m BEGAN
  ∧ snd (run (frames (before ++ [300%Q])) m) = completion_effects m BEGAN
  ∧ fst (run (frames (before ++ 300%Q :: after)) m)
    = fst (run (frames (before ++ [300%Q])) m)
  ∧ clockRunning (engine (fst (run (frames (before ++ 300%Q :: after)) m))) = false
  ∧ (∀ s' e,
        Qeq_bool (toValue e) (target_of (State_value s')) = false ->
        finished (state (observe_signal (State_value s') e)) = 0%Q).
Proof.
  apply (completion_called_exactly_once timing_linear android sample_signalled
           BEGAN [32%Q; 100%Q; 200%Q] [316%Q; 332%Q] 300%Q).
  - reflexivity.
  - reflexivity.
  - vm_compute. reflexivity.
  - vm_compute. reflexivity.
Defined.

Lemma reversal_keeps_position_witness :
  let ctx := fst (ReModalProvider sample_registry) in
  let d := mkDialog sample_registry sample_showing in
  let run := Dialog_run timing_linear android dialogA in
  let interrupted := fst (run (map AnimationFrame [100%Q; 200%Q]) d) in
  let reversed :=
    fst (run [Call (CallSetVisible ctx dialogA false); ProviderRender;
              AnimationFrame 216%Q] interrupted) in
  let r :=
    run (map AnimationFrame [100%Q; 200%Q]
         ++ Call (CallSetVisible ctx dialogA false) :: ProviderRender
            :: AnimationFrame 216%Q :: map AnimationFrame [300%Q; 500%Q]) d in
  (∀ f, ¬ In (CallOnModalShow f) (snd r))
  ∧ obj_get dialogA (visibleView (registry reversed)) = Some false
  ∧ state (engine (renderer reversed))
    = timing_linear 216%Q (duration android) 0%Q
        (mkTiming 0%Q (position (state (engine (renderer interrupted)))) 0%Q 0%Q)
  ∧ (position (state (engine (renderer reversed)))
     == position (state (engine (renderer interrupted))))%Q
  ∧ toValue (engine (renderer reversed)) = 0%Q
  ∧ clockRunning (engine (renderer reversed)) = true
  ∧ toValue (engine (renderer (fst r))) = 0%Q
  ∧ (ticks_after 0%Q [216%Q; 300%Q; 500%Q] = true ->
     spans (duration android) [216%Q; 300%Q; 500%Q] = true ->
     position (state (engine (renderer (fst r)))) = 0%Q
     ∧ clockRunning (engine (renderer (fst r))) = false).
Proof.
  apply (reversal_keeps_position timing_linear android dialogA
           (fst (ReModalProvider sample_registry))
           (mkDialog sample_registry sample_showing)
           [100%Q; 200%Q] [300%Q; 500%Q] 216%Q).
  - exact (timing_linear_contract _ (duration_pos android)).
  - vm_compute. by left.
  - reflexivity.
  - reflexivity.
  - reflexivity.
  - vm_compute. reflexivity.
  - reflexivity.
  - vm_compute. reflexivity.
Defined.

(** C2 as stated fails: [dialogA] is opened, its show run is under way
    after two frames, [setVisible(dialogA, false)] is called, and no
    render of the provider follows; the renderer never sees the new
    visibility, the show run completes, [onModalShow] is called and the
    progress ends at 1. *)
Lemma unrendered_hide_lets_show_complete :
  let ctx := fst (ReModalProvider hidden_registry) in
  let d := mkDialog hidden_registry
             (Modal_mount (render_Modal hidden_registry (dialogA, Some 1%nat))) in
  let run := Dialog_run timing_linear android dialogA in
  let opening :=
    [Call (CallSetVisible ctx dialogA true); ProviderRender;
     AnimationFrame 16%Q; AnimationFrame 100%Q] in
  let showing := renderer (fst (run opening d)) in
  let r := run (opening ++ [Call (CallSetVisible ctx dialogA false);
                            AnimationFrame 200%Q; AnimationFrame 300%Q]) d in
  animationState showing = State_value BEGAN
  ∧ toValue (engine showing) = 1%Q
  ∧ clockRunning (engine showing) = true
  ∧ truthy (finished (state (engine showing))) = false
  ∧ snd r = [AssignVisibleView dialogA true; AssignVisibleView dialogA false;
             CallOnModalShow 8%nat]
  ∧ obj_get dialogA (visibleView (registry (fst r))) = Some false
  ∧ progress (renderer (fst r)) = 1%Q.
Proof. repeat split; vm_compute; reflexivity. Qed.

Lemma mounted_visible_stays_at_zero_witness :
  let ins := [Frame 16%Q; Render (Some true); Frame 32%Q; Frame 400%Q] in
  let m := fst (Modal_run timing_linear android ins (Modal_mount visible_element)) in
  animationState (Modal_render_first visible_element) = -1
  ∧ animationState (Modal_mount visible_element) = -1
  ∧ animationState m = -1
  ∧ progress m = 0%Q
  ∧ pointerEvents m = auto_events
  ∧ snd (Modal_run timing_linear android ins (Modal_mount visible_element)) = []
  ∧ (∀ v, v ≠ Some true ->
       animationState (Modal_update v m) = State_value END
       ∧ pending (Modal_update v m) = true).
Proof.
  apply (mounted_visible_stays_at_zero timing_linear android visible_element
           [Frame 16%Q; Render (Some true); Frame 32%Q; Frame 400%Q]).
  - exact (timing_linear_contract _ (duration_pos android)).
  - vm_compute. reflexivity.
  - vm_compute. reflexivity.
Defined.

Lemma repeated_open_changes_nothing_witness :
  let ctx := fst (ReModalProvider hidden_registry) in
  let run := Dialog_run timing_linear android dialogA in
  let d :=
    fst (run [Call (CallSetVisible ctx dialogA true); ProviderRender;
              AnimationFrame 16%Q; AnimationFrame 100%Q; AnimationFrame 300%Q]
           (mkDialog hidden_registry
              (Modal_mount (render_Modal hidden_registry (dialogA, Some 1%nat))))) in
  let rest := [ProviderRender; AnimationFrame 316%Q; AnimationFrame 700%Q] in
  fst (run (Call (CallSetVisible ctx dialogA true) :: rest) d) = fst (run rest d)
  ∧ snd (run (Call (CallSetVisible ctx dialogA true) :: rest) d)
    = fst (setVisible ctx dialogA true (registry d)) ++ snd (run rest d)
  ∧ (∀ f, ¬ In (CallOnModalShow f) (fst (setVisible ctx dialogA true (registry d))))
  ∧ (rendered_isVisible (renderer d) = Some true ->
     Dialog_step timing_linear android dialogA ProviderRender d = (d, []))
  ∧ (∀ e, Qeq_bool (toValue e) 1%Q = true ->
          observe_signal (State_value BEGAN) e = e).
Proof.
  apply (repeated_open_changes_nothing timing_linear android dialogA
           (fst (ReModalProvider hidden_registry))
           (fst (Dialog_run timing_linear android dialogA
                   [Call (CallSetVisible (fst (ReModalProvider hidden_registry))
                            dialogA true);
                    ProviderRender;
                    AnimationFrame 16%Q; AnimationFrame 100%Q; AnimationFrame 300%Q]
                   (mkDialog hidden_registry
                      (Modal_mount
                         (render_Modal hidden_registry (dialogA, Some 1%nat))))))
           [ProviderRender; AnimationFrame 316%Q; AnimationFrame 700%Q]).
  vm_compute. reflexivity.
Defined.

Lemma settled_progress_follows_last_setVisible_witness :
  let fs := [132%Q; 200%Q; 300%Q; 400%Q] in
  let d := fst (Dialog_run timing_linear android dialogB
                  (sample_calls ++ ProviderRender :: map AnimationFrame fs)
                  (mkDialog sample_registry
                     (Modal_mount (render_Modal sample_registry (dialogB, Some 2%nat))))) in
  obj_get dialogB (visibleView (registry d)) = Some true
  ∧ rendered_isVisible (renderer d) = Some true
  ∧ progress (renderer d)
    = (if animationState (renderer d) =? -1 then 0%Q
       else if true then 1%Q else 0%Q)
  ∧ (modal_isVisible (render_Modal sample_registry (dialogB, Some 2%nat)) ≠ Some true ->
     progress (renderer d) = if true then 1%Q else 0%Q).
Proof.
  apply (settled_progress_follows_last_setVisible timing_linear android dialogB
           sample_registry (render_Modal sample_registry (dialogB, Some 2%nat))
           sample_calls [132%Q; 200%Q; 300%Q; 400%Q] true).
  - exact (timing_linear_contract _ (duration_pos android)).
  - vm_compute. reflexivity.
  - vm_compute. reflexivity.
  - vm_compute. reflexivity.
  - vm_compute. reflexivity.
Defined.

(** C4 as stated fails: [dialogA] is mounted visible, [setVisible(dialogA,
    true)] is the last call, the provider renders and frames covering
    far more than the duration pass, and the rendered progress is 0. *)
Lemma mounted_visible_never_shows :
  let ctx := fst (ReModalProvider sample_registry) in
  let ins := [Call (CallSetVisible ctx dialogA true); ProviderRender] in
  let fs := [16%Q; 100%Q; 200%Q; 300%Q; 1000%Q] in
  let d := fst (Dialog_run timing_linear android dialogA
                  (ins ++ ProviderRender :: map AnimationFrame fs)
                  (mkDialog sample_registry (Modal_mount visible_element))) in
  rendered_element dialogA sample_registry = Some visible_element
  ∧ last_setVisible dialogA ins None = Some true
  ∧ spans (duration android) fs = true
  ∧ rendered_isVisible (renderer d) = Some true
  ∧ progress (renderer d) = 0%Q
  ∧ ¬ (progress (renderer d) == 1)%Q.
Proof.
  repeat split; try (vm_compute; reflexivity).
  vm_compute. discriminate.
Qed.

(** ** Further properties of the registry *)

Lemma obj_keys_obj_set {V} (key : string) (v : V) (o : JsObject V) :
  obj_keys (obj_set key v o)
  = match obj_get key o with
    | Some _ => obj_keys o
    | None => obj_keys o ++ [key]
    end.
Proof.
  induction o as [|[k w] o IH]; simpl; [done|].
  destruct (String.eqb k key) eqn:E; simpl; [done|].
  rewrite IH. by destruct (obj_get key o).
Qed.

Lemma obj_get_None_keys {V} (key : string) (o : JsObject V) :
  obj_get key o = None ↔ ¬ In key (obj_keys o).
Proof.
  induction o as [|[k w] o IH]; simpl; [tauto|].
  destruct (String.eqb_spec k key) as [->|Hk].
  - split; [discriminate|]. intros H. destruct H. by left.
  - rewrite IH. split; [intros H [?|?]; [done|tauto]|tauto].
Qed.

Lemma obj_set_NoDup {V} (key : string) (v : V) (o : JsObject V) :
  NoDup (obj_keys o) -> NoDup (obj_keys (obj_set key v o)).
Proof.
  intros Hnd. rewrite obj_keys_obj_set.
  destruct (obj_get key o) eqn:E; [done|].
  apply NoDup_app. split; [done|]. split; [|apply NoDup_singleton].
  intros x Hx Hk. apply list_elem_of_singleton in Hk. subst x.
  apply obj_get_None_keys in E. apply E. by apply list_elem_of_In.
Qed.

Lemma currentView_None (vv : JsObject bool) :
  currentView vv = None -> ∀ key, obj_get key vv ≠ Some true.
Proof.
  unfold currentView.
  induction vv as [|[k b] vv IH]; simpl; [done|].
  destruct b; simpl; [done|]. intros H key.
  destruct (String.eqb k key); [done|]. by apply IH.
Qed.

Lemma currentView_Some (vv : JsObject bool) (key : string) :
  NoDup (obj_keys vv) -> currentView vv = Some key -> obj_get key vv = Some true.
Proof.
  unfold currentView.
  induction vv as [|[k b] vv IH]; simpl; [done|].
  intros Hnd. apply NoDup_cons in Hnd as [Hk Hnd].
  destruct b; simpl.
  - intros [= ->]. by rewrite String.eqb_refl.
  - intros H. specialize (IH Hnd H).
    destruct (String.eqb_spec k key) as [->|_]; [|done].
    exfalso. apply Hk. apply list_elem_of_In.
    apply (in_map fst _ _ (obj_get_In _ _ _ IH)).
Qed.

(** X1. [currentView] is the first entry of [visibleView], in insertion
    order, whose value is true: it is [key] exactly when the entry of
    [key] is true and every entry before it is false, and it is
    [undefined] exactly when every entry is false. *)
Theorem currentView_first_visible (vv : JsObject bool) (key : string) :
  (currentView vv = Some key
   ↔ ∃ before after,
       vv = before ++ (key, true) :: after
       ∧ Forall (fun kv : string * bool => snd kv = false) before)
  ∧ (currentView vv = None
     ↔ Forall (fun kv : string * bool => snd kv = false) vv).
Proof.
  unfold currentView. split.
  - split.
    + induction vv as [|[k b] vv IH]; simpl; [done|].
      destruct b; simpl.
      * intros [= ->]. by exists [], vv.
      * intros H. destruct (IH H) as (before & after & -> & Hall).
        exists ((k, false) :: before), after. split; [done|].
        by constructor.
    + intros (before & after & -> & Hall).
      induction Hall as [|[k b] before Hb Hall IH]; simpl; [done|].
      simpl in Hb. subst b. exact IH.
  - induction vv as [|[k b] vv IH]; simpl; [done|].
    destruct b; simpl.
    + split; [done|]. intros H. by inversion H.
    + rewrite IH. split; [by constructor|]. intros H. by inversion H.
Qed.

(** X2. Registering an identity that had no visibility entry appends
    it: the current dialog stays the one it was, and the new identity
    becomes current only when no dialog was visible and it is
    registered visible. *)
Theorem currentView_after_registering (vv : JsObject bool) (key : string)
    (visible : bool) :
  obj_get key vv = None ->
  currentView (obj_set key visible vv)
  = match currentView vv with
    | Some current => Some current
    | None => if visible then Some key else None
    end.
Proof.
  unfold currentView.
  induction vv as [|[k b] vv IH]; simpl.
  - by destruct visible.
  - destruct (String.eqb k key) eqn:E; [done|]. intros H. simpl.
    destruct b; simpl; [done|]. by apply IH.
Qed.

Lemma currentView_after_registering_witness :
  currentView (obj_set "cjld2d0000002t3rmaaaaaaaa" true (visibleView sample_registry))
  = match currentView (visibleView sample_registry) with
    | Some current => Some current
    | None => if true then Some "cjld2d0000002t3rmaaaaaaaa" else None
    end.
Proof.
  apply (currentView_after_registering (visibleView sample_registry)
           "cjld2d0000002t3rmaaaaaaaa" true).
  vm_compute. reflexivity.
Defined.

(** X3. Hand-over: when [B] is set visible and [A] is set hidden, and
    no identity other than these two is stored visible, the next render
    of the provider has [B] as its current dialog, whatever context
    values the two calls went through. *)
Theorem currentView_hand_over (c1 c2 : IReModalContext) (st : ProviderState)
    (A B : string) :
  NoDup (obj_keys (visibleView st)) ->
  A ≠ B ->
  (∀ key, key ≠ A -> key ≠ B -> obj_get key (visibleView st) ≠ Some true) ->
  closure_currentView
    (fst (ReModalProvider
            (snd (setVisible c2 A false (snd (setVisible c1 B true st))))))
  = Some B.
Proof.
  intros Hnd HAB Hothers. simpl.
  set (vv := obj_set A false (obj_set B true (visibleView st))).
  assert (Hnd' : NoDup (obj_keys vv)) by (by do 2 apply obj_set_NoDup).
  assert (HB : obj_get B vv = Some true).
  { unfold vv. rewrite obj_get_set_ne by done. apply obj_get_set_eq. }
  destruct (currentView vv) as [key|] eqn:E.
  - pose proof (currentView_Some vv key Hnd' E) as Hkey.
    destruct (decide (key = B)) as [->|HkB]; [done|].
    destruct (decide (key = A)) as [->|HkA].
    + unfold vv in Hkey. by rewrite obj_get_set_eq in Hkey.
    + unfold vv in Hkey. rewrite !obj_get_set_ne in Hkey by done.
      by destruct (Hothers key).
  - by destruct (currentView_None vv E B).
Qed.

Lemma currentView_hand_over_witness :
  closure_currentView
    (fst (ReModalProvider
            (snd (setVisible (mkContext None) dialogA false
                    (snd (setVisible (mkContext None) dialogB true sample_registry))))))
  = Some dialogB.
Proof.
  apply (currentView_hand_over (mkContext None) (mkContext None)
           sample_registry dialogA dialogB).
  - apply (bool_decide_unpack _). vm_compute. reflexivity.
  - discriminate.
  - intros key HA HB.
    change (obj_get key [(dialogA, true); (dialogB, false)] ≠ Some true).
    cbn [obj_get].
    destruct (String.eqb_spec dialogA key); [congruence|].
    destruct (String.eqb_spec dialogB key); [congruence|]. discriminate.
Defined.

Lemma and_then_trace (op1 op2 : ProviderState -> list Effect * ProviderState)
    (st : ProviderState) :
  fst (and_then op1 op2 st) = fst (op1 st) ++ fst (op2 (snd (op1 st)))
  ∧ snd (and_then op1 op2 st) = snd (op2 (snd (op1 st))).
Proof. done. Qed.

Lemma RegistryCall_extends_views (c : RegistryCall) (st : ProviderState) :
  ∃ more, obj_keys (views (snd (RegistryCall_run c st)))
          = obj_keys (views st) ++ more.
Proof.
  destruct c as [key view| |]; simpl;
    [|by exists []; rewrite app_nil_r..].
  rewrite obj_keys_obj_set.
  destruct (obj_get key (views st)); [exists []; by rewrite app_nil_r|by eexists].
Qed.

(** X4. Whatever registry calls are made, the list of renderers the
    provider renders keeps its order and is only ever extended at its
    end: no call removes or moves a renderer. *)
Theorem render_list_only_grows (calls : list RegistryCall) (st : ProviderState) :
  ∃ more,
    map modal_key (snd (ReModalProvider (snd (Registry_run calls st))))
    = map modal_key (snd (ReModalProvider st)) ++ more.
Proof.
  rewrite !rendered_keys. revert st.
  induction calls as [|c calls IH]; intros st; simpl.
  - exists []. by rewrite app_nil_r.
  - destruct (RegistryCall_extends_views c st) as [more1 H1].
    destruct (IH (snd (RegistryCall_run c st))) as [more2 H2].
    exists (more1 ++ more2). by rewrite H2, H1, app_assoc.
Qed.

Lemma rendered_element_fmap (key : string) (st : ProviderState) :
  rendered_element key st
  = (fun view => render_Modal st (key, view)) <$> obj_get key (views st).
Proof.
  unfold rendered_element, ReModalProvider. simpl.
  induction (views st) as [|[k w] o IH]; simpl; [done|].
  destruct (String.eqb_spec k key) as [->|_]; [done|]. exact IH.
Qed.

Lemma rendered_element_entry (key : string) (st1 st2 : ProviderState) :
  entry_of key st1 = entry_of key st2 ->
  rendered_element key st1 = rendered_element key st2.
Proof.
  unfold entry_of. intros [= Hv Hvis Hcfg].
  rewrite !rendered_element_fmap, Hv.
  destruct (obj_get key (views st2)); simpl; [|done].
  unfold render_Modal, selectedView. simpl. by rewrite Hvis, Hcfg.
Qed.

Lemma entry_of_and_then (key : string)
    (op1 op2 : ProviderState -> list Effect * ProviderState) :
  (∀ st, entry_of key (snd (op1 st)) = entry_of key st) ->
  (∀ st, entry_of key (snd (op2 st)) = entry_of key st) ->
  ∀ st, entry_of key (snd (and_then op1 op2 st)) = entry_of key st.
Proof. intros H1 H2 st. simpl. by rewrite H2, H1. Qed.

Lemma entry_of_when (key : string) (b : bool)
    (op : ProviderState -> list Effect * ProviderState) :
  (∀ st, entry_of key (snd (op st)) = entry_of key st) ->
  ∀ st, entry_of key (snd (when b op st)) = entry_of key st.
Proof. intros H st. destruct b; [apply H|done]. Qed.

Lemma entry_of_setView (key id : string) (view : option ReactElement) :
  key ≠ id -> ∀ st, entry_of key (snd (setView id view st)) = entry_of key st.
Proof.
  intros Hne st. unfold entry_of. simpl. by rewrite obj_get_set_ne.
Qed.

Lemma entry_of_setConfig (key id : string) (config : IReModalProps) :
  key ≠ id -> ∀ st, entry_of key (snd (setConfig id config st)) = entry_of key st.
Proof.
  intros Hne st. unfold entry_of. simpl. by rewrite lookup_insert_ne.
Qed.

Lemma entry_of_setVisible (key id : string) (ctx : IReModalContext) (v : bool) :
  key ≠ id -> ∀ st, entry_of key (snd (setVisible ctx id v st)) = entry_of key st.
Proof.
  intros Hne st. unfold entry_of. simpl. by rewrite obj_get_set_ne.
Qed.

(** X5. After a declaration with a non-empty identity is mounted, the
    registry holds its content, its visibility and its configuration
    with the defaults applied ([autoCloseWhenOpeningNextDialog] true,
    the default animation function), and the provider renders for it a
    renderer with exactly these props. *)
Theorem mount_registers_declaration (ctx : IReModalContext) (id : string)
    (p : ReModalProps) (st : ProviderState) :
  id ≠ "" ->
  registered id p (snd (ReModal_effects ctx id p st))
  ∧ autoCloseWhenOpeningNextDialog (ReModal_config p)
    = Some (default true (prop_autoCloseWhenOpeningNextDialog p))
  ∧ rendered_element id (snd (ReModal_effects ctx id p st))
    = Some (mkModalProps id (Some (children p)) (Some (isVisible p))
              (default defaultModalAnimationStyle (prop_modalAnimationFunction p))
              (without_modalAnimationFunction (ReModal_config p))).
Proof.
  intros Hid. unfold registered. simpl.
  rewrite !obj_get_set_eq, lookup_insert_eq. repeat split.
  rewrite (rendered_element_lookup id _ (Some (children p)))
    by apply obj_get_set_eq.
  unfold render_Modal. simpl. rewrite obj_get_set_eq.
  destruct (String.eqb_spec id ""); [done|].
  by rewrite lookup_insert_eq.
Qed.

Lemma mount_registers_declaration_witness :
  let ctx := fst (ReModalProvider emptyProvider) in
  registered dialogA propsA (snd (ReModal_effects ctx dialogA propsA emptyProvider))
  ∧ autoCloseWhenOpeningNextDialog (ReModal_config propsA)
    = Some (default true (prop_autoCloseWhenOpeningNextDialog propsA))
  ∧ rendered_element dialogA (snd (ReModal_effects ctx dialogA propsA emptyProvider))
    = Some (mkModalProps dialogA (Some (children propsA)) (Some (isVisible propsA))
              (default defaultModalAnimationStyle (prop_modalAnimationFunction propsA))
              (without_modalAnimationFunction (ReModal_config propsA))).
Proof.
  apply (mount_registers_declaration (fst (ReModalProvider emptyProvider))
           dialogA propsA emptyProvider).
  discriminate.
Defined.

(** X6. Mounting, updating or unmounting the declaration [id] leaves
    what the registry holds for every other identity as it was, and with
    it the renderer the provider renders for that identity. *)
Theorem other_identities_untouched (ctx : IReModalContext) (id key : string)
    (p old new : ReModalProps) (st : ProviderState) :
  key ≠ id ->
  entry_of key (snd (ReModal_effects ctx id p st)) = entry_of key st
  ∧ entry_of key (snd (ReModal_update ctx id old new st)) = entry_of key st
  ∧ entry_of key (snd (ReModal_unmount ctx id st)) = entry_of key st
  ∧ rendered_element key (snd (ReModal_effects ctx id p st))
    = rendered_element key st
  ∧ rendered_element key (snd (ReModal_update ctx id old new st))
    = rendered_element key st
  ∧ rendered_element key (snd (ReModal_unmount ctx id st))
    = rendered_element key st.
Proof.
  intros Hne.
  assert (H1 : entry_of key (snd (ReModal_effects ctx id p st)) = entry_of key st).
  { unfold ReModal_effects.
    repeat (apply entry_of_and_then; intros);
      auto using entry_of_setView, entry_of_setConfig, entry_of_setVisible. }
  assert (H2 : entry_of key (snd (ReModal_update ctx id old new st)) = entry_of key st).
  { unfold ReModal_update.
    repeat (apply entry_of_and_then; intros); try apply entry_of_when;
      auto using entry_of_setView, entry_of_setConfig, entry_of_setVisible. }
  assert (H3 : entry_of key (snd (ReModal_unmount ctx id st)) = entry_of key st).
  { unfold ReModal_unmount.
    repeat (apply entry_of_and_then; intros);
      auto using entry_of_setView, entry_of_setConfig, entry_of_setVisible. }
  repeat split; try done; by apply rendered_element_entry.
Qed.

Lemma other_identities_untouched_witness :
  let ctx := fst (ReModalProvider sample_registry) in
  let st := sample_registry in
  entry_of dialogA (snd (ReModal_effects ctx dialogB propsB st)) = entry_of dialogA st
  ∧ entry_of dialogA (snd (ReModal_update ctx dialogB propsB propsA st))
    = entry_of dialogA st
  ∧ entry_of dialogA (snd (ReModal_unmount ctx dialogB st)) = entry_of dialogA st
  ∧ rendered_element dialogA (snd (ReModal_effects ctx dialogB propsB st))
    = rendered_element dialogA st
  ∧ rendered_element dialogA (snd (ReModal_update ctx dialogB propsB propsA st))
    = rendered_element dialogA st
  ∧ rendered_element dialogA (snd (ReModal_unmount ctx dialogB st))
    = rendered_element dialogA st.
Proof.
  apply (other_identities_untouched (fst (ReModalProvider sample_registry))
           dialogB dialogA propsB propsB propsA sample_registry).
  discriminate.
Defined.

Lemma setVisible_trace_no_SetViews (ctx : IReModalContext) (id : string)
    (visible : bool) (st : ProviderState) (key : string)
    (view : option ReactElement) :
  ¬ In (SetViews key view) (fst (setVisible ctx id visible st)).
Proof.
  unfold setVisible. simpl. set (cfg := selectedView _ _).
  destruct visible, (onCancel cfg), (autoCloseWhenOpeningNextDialog cfg) as [[]|];
    simpl; intros H; repeat destruct H as [H|H]; try discriminate; done.
Qed.

(** X7. A later render of a mounted declaration leaves the registry
    holding the new props: content, visibility and configuration are
    those of the latest render, whichever of them changed, and the
    identity keeps its place in the order of both tables. *)
Theorem update_keeps_registry_current (ctx : IReModalContext) (id : string)
    (old new : ReModalProps) (st : ProviderState) :
  registered id old st ->
  registered id new (snd (ReModal_update ctx id old new st))
  ∧ obj_keys (views (snd (ReModal_update ctx id old new st)))
    = obj_keys (views st)
  ∧ obj_keys (visibleView (snd (ReModal_update ctx id old new st)))
    = obj_keys (visibleView st).
Proof.
  intros (Hview & Hvis & Hcfg). unfold ReModal_update, registered.
  destruct (Bool.eqb (isVisible old) (isVisible new)) eqn:Ev;
    destruct (Nat.eqb (children old) (children new)) eqn:Ec; simpl;
    try (apply Bool.eqb_prop in Ev); try (apply Nat.eqb_eq in Ec);
    rewrite ?obj_get_set_eq, ?lookup_insert_eq, ?obj_keys_obj_set,
      ?obj_get_set_eq, ?Hview, ?Hvis;
    repeat split; congruence.
Qed.

Lemma update_keeps_registry_current_witness :
  let ctx := fst (ReModalProvider emptyProvider) in
  let st := snd (ReModal_effects ctx dialogA propsA emptyProvider) in
  registered dialogA propsB (snd (ReModal_update ctx dialogA propsA propsB st))
  ∧ obj_keys (views (snd (ReModal_update ctx dialogA propsA propsB st)))
    = obj_keys (views st)
  ∧ obj_keys (visibleView (snd (ReModal_update ctx dialogA propsA propsB st)))
    = obj_keys (visibleView st).
Proof.
  apply (update_keeps_registry_current (fst (ReModalProvider emptyProvider))
           dialogA propsA propsB
           (snd (ReModal_effects (fst (ReModalProvider emptyProvider))
                   dialogA propsA emptyProvider))).
  repeat split; vm_compute; reflexivity.
Defined.

(** X8. A later render of a declaration calls the state setter of the
    provider, and so asks it to render, exactly when the [children]
    element is a different one; when it is the same element the content
    table is untouched, even if [isVisible] changed. *)
Theorem update_requests_render_iff_children_change (ctx : IReModalContext)
    (id : string) (old new : ReModalProps) (st : ProviderState) :
  ((∃ key view, In (SetViews key view) (fst (ReModal_update ctx id old new st)))
   ↔ children old ≠ children new)
  ∧ (children old = children new ->
     views (snd (ReModal_update ctx id old new st)) = views st).
Proof.
  unfold ReModal_update.
  pose proof (setVisible_trace_no_SetViews ctx id false) as Hhide.
  pose proof (setVisible_trace_no_SetViews ctx id (isVisible new)) as Hshow.
  assert (Hv1 : ∀ st', views (snd (setVisible ctx id false st')) = views st')
    by done.
  assert (Hv2 : ∀ st', views (snd (setVisible ctx id (isVisible new) st')) = views st')
    by done.
  revert Hhide Hshow Hv1 Hv2.
  generalize (setVisible ctx id false) (setVisible ctx id (isVisible new)).
  intros hide show Hhide Hshow Hv1 Hv2.
  destruct (Nat.eqb_spec (children old) (children new)) as [Ec|Ec];
    destruct (negb (Bool.eqb (isVisible old) (isVisible new))); simpl;
    (split; [|by rewrite ?Hv2, ?Hv1]); split; try done.
  - intros (key & view & H). exfalso. revert H.
    rewrite !in_app_iff. simpl.
    intros H; repeat destruct H as [H|H]; try discriminate; try done;
      by (apply Hhide in H || apply Hshow in H).
  - intros (key & view & H). exfalso. revert H. simpl.
    intros H; repeat destruct H as [H|H]; try discriminate; done.
  - intros _. exists id, (Some (children new)).
    rewrite !in_app_iff. simpl. rewrite !in_app_iff. simpl. tauto.
  - intros _. exists id, (Some (children new)). simpl. tauto.
Qed.

Lemma currentView_all_hidden (vv : JsObject bool) :
  Forall (fun kv : string * bool => snd kv = false) vv -> currentView vv = None.
Proof.
  unfold currentView. induction 1 as [|[k b] vv Hb _ IH]; simpl; [done|].
  simpl in Hb. by subst b.
Qed.

(** X9. When no identity is stored visible, the back-press listener of
    the provider's render calls nothing and reports the press as not
    handled. *)
Theorem back_press_unhandled_when_nothing_visible (st : ProviderState) :
  Forall (fun kv : string * bool => snd kv = false) (visibleView st) ->
  hardwareBackPress (fst (ReModalProvider st)) st = ([], false).
Proof.
  intros Hall. unfold hardwareBackPress, ReModalProvider. simpl.
  by rewrite (currentView_all_hidden _ Hall).
Qed.

Lemma back_press_unhandled_when_nothing_visible_witness :
  hardwareBackPress
    (fst (ReModalProvider (snd (setVisible (mkContext None) dialogA false sample_registry))))
    (snd (setVisible (mkContext None) dialogA false sample_registry))
  = ([], false).
Proof.
  apply (back_press_unhandled_when_nothing_visible
           (snd (setVisible (mkContext None) dialogA false sample_registry))).
  vm_compute. repeat constructor.
Defined.

(** X10. Whenever opening a dialog through a context value cancels the
    current one by calling [f], a back press handled through the same
    context value calls the same [f] and reports the press as handled.
    The cancelling call is followed by the assignment only. *)
Theorem back_press_agrees_with_auto_close (ctx : IReModalContext) (key : string)
    (st : ProviderState) (f : Callback) (others : list Effect) :
  fst (setVisible ctx key true st) = CallOnCancel f :: others ->
  hardwareBackPress ctx st = ([CallOnCancel f], true)
  ∧ others = [AssignVisibleView key true].
Proof.
  unfold setVisible, hardwareBackPress. simpl.
  set (cfg := selectedView (configs st) (closure_currentView ctx)).
  destruct (onCancel cfg) as [g|], (autoCloseWhenOpeningNextDialog cfg) as [[]|];
    simpl; intros [= ]; by subst.
Qed.

Lemma back_press_agrees_with_auto_close_witness :
  hardwareBackPress (fst (ReModalProvider sample_registry)) sample_registry
  = ([CallOnCancel 7%nat], true)
  ∧ [AssignVisibleView dialogB true] = [AssignVisibleView dialogB true].
Proof.
  apply (back_press_agrees_with_auto_close (fst (ReModalProvider sample_registry))
           dialogB sample_registry 7%nat [AssignVisibleView dialogB true]).
  vm_compute. reflexivity.
Defined.

(** ** Further properties of the engine and the renderer *)

Lemma interpolate_clamp_bounds (x : Q) :
  (0 <= interpolate_clamp x)%Q ∧ (interpolate_clamp x <= 1)%Q.
Proof.
  unfold interpolate_clamp.
  destruct (Qle_bool x 0) eqn:E0; [split; lra|].
  destruct (Qle_bool 1 x) eqn:E1; [split; lra|].
  assert (H0 : ¬ (x <= 0)%Q) by (rewrite <- Qle_bool_iff; congruence).
  assert (H1 : ¬ (1 <= x)%Q) by (rewrite <- Qle_bool_iff; congruence).
  split; lra.
Qed.

(** X11. Whatever [timing] does to the position, whatever the signal,
    the clock and the state of the engine, the value of the block, and
    so the progress a renderer shows, lies between 0 and 1. *)
Theorem block_value_within_unit_interval
    (timing : Q -> Q -> Q -> TimingState -> TimingState) (os : PlatformOS)
    (onShow onHide : option Callback) (gestureState : Z) (clock : Q)
    (e : Engine) (m : ModalInstance) :
  (0 <= snd (runOpacityTimer timing os onShow onHide gestureState clock e))%Q
  ∧ (snd (runOpacityTimer timing os onShow onHide gestureState clock e) <= 1)%Q
  ∧ (0 <= progress m)%Q
  ∧ (progress m <= 1)%Q.
Proof.
  unfold runOpacityTimer, progress. simpl.
  split; [apply interpolate_clamp_bounds|].
  split; [apply interpolate_clamp_bounds|].
  apply interpolate_clamp_bounds.
Qed.

Section RendererRuns.

Variable timing : Q -> Q -> Q -> TimingState -> TimingState.
Variable os : PlatformOS.

Abbreviation frame_at := (Modal_frame timing os).
Abbreviation run := (Modal_run timing os).

Lemma Modal_update_keeps_engine (v : option bool) (m : ModalInstance) :
  engine (Modal_update v m) = engine m
  ∧ captured_onModalShow (Modal_update v m) = captured_onModalShow m
  ∧ captured_onModalHide (Modal_update v m) = captured_onModalHide m.
Proof.
  unfold Modal_update. by destruct (decide (v = rendered_isVisible m)).
Qed.

Lemma observe_signal_keeps_running (g : Z) (e : Engine) :
  clockRunning e = true -> clockRunning (observe_signal g e) = true.
Proof.
  intros H. unfold observe_signal.
  repeat match goal with |- context [if ?c then _ else _] => destruct c end;
    done.
Qed.

(** An evaluated frame calls the completion callback exactly when it
    leaves the clock stopped. *)
Lemma evaluated_frame_trace (p0 : option bool) (T t : Q) (m : ModalInstance)
    (s : State) :
  timing_contract timing (duration os) ->
  Modal_inv (duration os) p0 T m ->
  animationState m = State_value s ->
  pending m || clockRunning (engine m) = true ->
  (T <= t)%Q -> (0 < t)%Q ->
  snd (frame_at t m)
  = if clockRunning (engine (fst (frame_at t m))) then []
    else completion_effects m s.
Proof.
  intros Hc Hinv Hg Hev HT Ht.
  unfold Modal_frame. rewrite Hev. simpl.
  set (e2 := observe_signal (animationState m) (engine m)).
  set (st' := timing t (duration os) (toValue e2) (state e2)).
  destruct (truthy (finished st')) eqn:Hfin.
  - unfold completion_call, completion_effects. rewrite Hfin, Hg.
    destruct s, (captured_onModalShow m), (captured_onModalHide m); done.
  - rewrite !completion_call_unfinished by done.
    assert (Hrun : clockRunning e2 = true); [|by rewrite Hrun].
    destruct Hinv as [(_ & Hg' & _)|Hi Hg' Htv Hr Hp|Hi Hg' Htv H0 HT0 Hf Hrun Hstop Hpend].
    + rewrite Hg in Hg'. by destruct s.
    + unfold e2. rewrite Hg, (observe_signal_restart s); [done|].
      rewrite Htv. by destruct s.
    + destruct (Qeq_bool (toValue (engine m)) (target_of (State_value s))) eqn:E.
      * destruct (clockRunning (engine m)) eqn:Er.
        { by apply observe_signal_keeps_running. }
        exfalso. destruct (Hstop eq_refl) as [_ Hle].
        assert (He2 : e2 = engine m).
        { unfold e2. rewrite Hg. by apply (observe_signal_on_target s). }
        destruct (continue_timing_facts timing os (toValue (engine m)) t T
                    (state (engine m)) Hc H0 HT0 HT)
          as (_ & Hgrow & [(_ & _ & Hdone)|(Hlt & _)]).
        -- unfold st' in Hfin. rewrite He2 in Hfin. simpl in Hdone. congruence.
        -- simpl in *. lra.
      * unfold e2. by rewrite Hg, (observe_signal_restart s).
Qed.

Lemma running_frames_trace (p0 : option bool) (ts : list Q) (T : Q)
    (m : ModalInstance) (s : State) :
  timing_contract timing (duration os) ->
  Modal_inv (duration os) p0 T m ->
  pending m = false ->
  clockRunning (engine m) = true ->
  animationState m = State_value s ->
  ticks_after T ts = true ->
  (duration os <= frameTime (state (engine m)) + (List.last ts T - T))%Q ->
  snd (run (frames ts) m) = completion_effects m s.
Proof.
  intros Hc. revert T m.
  induction ts as [|t ts IH]; intros T m Hinv Hp Hr Hg Hticks Hleft.
  - exfalso. simpl in Hleft.
    destruct Hinv as [(_ & _ & _ & _ & Hr' & _)|? ? ? ? Hp'|? ? ? ? ? ? Hrun _ _];
      [congruence|congruence|].
    destruct (Hrun Hr) as [_ Hlt]. lra.
  - destruct (ticks_after_cons T t ts Hticks) as (HT & Ht & Hts).
    destruct (inv_frame timing os p0 T t m Hc HT Ht Hinv) as [Hinv' Hgrow].
    destruct (Modal_frame_keeps timing os t m) as (_ & _ & Ka & Ks & Kh).
    pose proof (Modal_frame_pending timing os t m) as Hp'.
    rewrite last_cons_default in Hleft.
    assert (Hev : pending m || clockRunning (engine m) = true)
      by (by rewrite Hr, orb_true_r).
    pose proof (evaluated_frame_trace p0 T t m s Hc Hinv Hg Hev HT Ht) as Htr.
    simpl. rewrite Htr.
    destruct (clockRunning (engine (fst (frame_at t m)))) eqn:Er'.
    + simpl. rewrite (IH t (fst (frame_at t m))); try done.
      * unfold completion_effects. by rewrite Ks, Kh.
      * congruence.
      * specialize (Hgrow Hp Hr). lra.
    + change (map Frame ts) with (frames ts).
      rewrite (Modal_frames_idle timing os ts _ Hp' Er'). simpl.
      by rewrite app_nil_r.
Qed.

Lemma frames_complete_trace (p0 : option bool) (fs : list Q) (T : Q)
    (m : ModalInstance) (s : State) :
  timing_contract timing (duration os) ->
  Modal_inv (duration os) p0 T m ->
  pending m = true ->
  animationState m = State_value s ->
  ticks_after T fs = true ->
  spans (duration os) fs = true ->
  snd (run (frames fs) m) = completion_effects m s
  ∧ clockRunning (engine (fst (run (frames fs) m))) = false.
Proof.
  intros Hc Hinv Hp Hg Hticks Hspan.
  destruct fs as [|t0 fs]; [discriminate|].
  simpl in Hspan. apply Qle_bool_iff in Hspan.
  destruct (ticks_after_cons T t0 fs Hticks) as (HT & Ht & Hts).
  destruct (inv_frame timing os p0 T t0 m Hc HT Ht Hinv) as [Hinv1 _].
  destruct (Modal_frame_keeps timing os t0 m) as (_ & _ & Ka & Ks & Kh).
  pose proof (Modal_frame_pending timing os t0 m) as Hp1.
  assert (Hev : pending m || clockRunning (engine m) = true) by (by rewrite Hp).
  pose proof (evaluated_frame_trace p0 T t0 m s Hc Hinv Hg Hev HT Ht) as Htr.
  assert (Hg1 : animationState (fst (frame_at t0 m)) = State_value s) by congruence.
  assert (Hleft : clockRunning (engine (fst (frame_at t0 m))) = true ->
            (duration os <= frameTime (state (engine (fst (frame_at t0 m))))
                            + (List.last fs t0 - t0))%Q).
  { intros _.
    destruct Hinv1 as [(_ & Hg' & _)|? ? ? ? Hp'|_ _ _ _ _ Hf _ _ _].
    - rewrite Hg1 in Hg'. by destruct s.
    - congruence.
    - lra. }
  destruct (frames_finish_run timing os p0 fs t0 _ s Hc Hinv1 Hp1 Hg1 Hts Hleft)
    as (Hstop & _).
  simpl. split; [|done]. rewrite Htr.
  destruct (clockRunning (engine (fst (frame_at t0 m)))) eqn:Er.
  - simpl. rewrite (running_frames_trace p0 fs t0 _ s); try done; [|by apply Hleft].
    unfold completion_effects. by rewrite Ks, Kh.
  - change (map Frame fs) with (frames fs).
    rewrite (Modal_frames_idle timing os fs _ Hp1 Er). simpl.
    by rewrite app_nil_r.
Qed.

Lemma Modal_run_inv (p0 : option bool) (ins : list ModalInput) (rest : list Q)
    (T : Q) (m : ModalInstance) :
  timing_contract timing (duration os) ->
  Modal_inv (duration os) p0 T m ->
  ticks_after T (frame_times ins ++ rest) = true ->
  ∃ T', Modal_inv (duration os) p0 T' (fst (run ins m))
        ∧ ticks_after T' rest = true.
Proof.
  intros Hc. revert T m.
  induction ins as [|i ins IH]; intros T m Hinv Hticks; [by exists T|].
  destruct i as [v|t]; simpl in *.
  - apply (IH T); [|done]. by apply inv_update.
  - destruct (ticks_after_cons T t _ Hticks) as (HT & Ht & Hts).
    destruct (inv_frame timing os p0 T t m Hc HT Ht Hinv) as [Hinv' _].
    by apply (IH t).
Qed.

Lemma Modal_inv_init (p0 : option bool) (T : Q) (m : ModalInstance) :
  Modal_inv (duration os) p0 T m -> init m = true.
Proof. by intros [(? & _)|? _ _ _ _|? _ _ _ _ _ _ _ _]. Qed.

(** X12. Take a renderer in any state it can reach from its mount, and
    render it with a different [isVisible].  Once frames covering the
    duration have passed, exactly one callback has been called, the
    completion callback of the new direction; the clock is stopped and
    the progress is 1 for a show and 0 for a hide. *)
Theorem visibility_change_completes_once (p : ModalProps) (ins : list ModalInput)
    (v : option bool) (fs : list Q) :
  timing_contract timing (duration os) ->
  ticks_after 0%Q (frame_times ins ++ fs) = true ->
  spans (duration os) fs = true ->
  v ≠ rendered_isVisible (fst (run ins (Modal_mount p))) ->
  let m := fst (run ins (Modal_mount p)) in
  let s := if visible_truthy v then BEGAN else END in
  snd (run (Render v :: frames fs) m) = completion_effects m s
  ∧ progress (fst (run (Render v :: frames fs) m)) = target_of (State_value s)
  ∧ clockRunning (engine (fst (run (Render v :: frames fs) m))) = false
  ∧ rendered_isVisible (fst (run (Render v :: frames fs) m)) = v.
Proof.
  intros Hc Hticks Hspan Hne. cbv zeta.
  destruct (Modal_run_inv (modal_isVisible p) ins fs 0%Q (Modal_mount p) Hc)
    as (T & Hinv & HT); [apply inv_fresh, Modal_mount_fresh|done|].
  set (m := fst (run ins (Modal_mount p))) in *.
  set (s := if visible_truthy v then BEGAN else END).
  pose proof (Modal_inv_init _ _ _ Hinv) as Hi.
  assert (Hup : Modal_update v m
                = mkModal true v (State_value s) true (engine m)
                    (captured_onModalShow m) (captured_onModalHide m)).
  { unfold Modal_update. rewrite decide_False by done.
    unfold Modal_effect. simpl. by rewrite Hi. }
  pose proof (inv_update os (modal_isVisible p) T v m Hinv) as Hinv1.
  change (run (Render v :: frames fs) m)
    with (fst (run (frames fs) (Modal_update v m)),
          [] ++ snd (run (frames fs) (Modal_update v m))).
  cbn [fst snd app]. rewrite Hup in *.
  set (m1 := mkModal true v (State_value s) true (engine m) _ _) in *.
  destruct (frames_complete_trace (modal_isVisible p) fs T m1 s Hc Hinv1
              eq_refl eq_refl HT Hspan) as (Htr & Hstop).
  destruct (Modal_settles timing os (modal_isVisible p) fs T m1 s Hc Hinv1
              eq_refl HT Hspan) as (Hprog & _ & Hv).
  by rewrite Htr, Hprog, Hstop, Hv.
Qed.

End RendererRuns.

Section DialogRuns.

Variable timing : Q -> Q -> Q -> TimingState -> TimingState.
Variable os : PlatformOS.
Variable id : string.

Abbreviation dialog_run := (Dialog_run timing os id).

Lemma RegistryCall_trace_no_completion (onShow onHide : option Callback)
    (c : RegistryCall) (st : ProviderState) :
  completion_calls_are onShow onHide (fst (RegistryCall_run c st)).
Proof.
  unfold completion_calls_are.
  destruct c as [| |ctx key v]; simpl; [by repeat constructor..|].
  set (cfg := selectedView _ _).
  destruct v, (onCancel cfg), (autoCloseWhenOpeningNextDialog cfg) as [[]|];
    by repeat constructor.
Qed.

Lemma Modal_frame_trace_captured (t : Q) (m : ModalInstance) :
  completion_calls_are (captured_onModalShow m) (captured_onModalHide m)
    (snd (Modal_frame timing os t m)).
Proof.
  unfold completion_calls_are, Modal_frame.
  destruct (pending m || clockRunning (engine m)); [|by constructor].
  simpl. apply Forall_app. unfold completion_call.
  split.
  - destruct (captured_onModalShow m); [|by constructor].
    match goal with |- context [if ?c then _ else _] => destruct c end;
      by repeat constructor.
  - destruct (captured_onModalHide m); [|by constructor].
    match goal with |- context [if ?c then _ else _] => destruct c end;
      by repeat constructor.
Qed.

Lemma Dialog_run_trace_captured (ins : list DialogInput) (d : Dialog) :
  completion_calls_are (captured_onModalShow (renderer d))
    (captured_onModalHide (renderer d)) (snd (dialog_run ins d)).
Proof.
  revert d. induction ins as [|i ins IH]; intros d; [by constructor|].
  simpl. apply Forall_app.
  destruct i as [c| |t]; simpl.
  - split; [apply RegistryCall_trace_no_completion|apply (IH (mkDialog _ _))].
  - destruct (rendered_element id (registry d)) as [p|]; simpl.
    + split; [by constructor|].
      specialize (IH (mkDialog (registry d)
                        (Modal_update (modal_isVisible p) (renderer d)))).
      simpl in IH.
      destruct (Modal_update_keeps_engine (modal_isVisible p) (renderer d))
        as (_ & Hs & Hh).
      by rewrite Hs, Hh in IH.
    + split; [by constructor|apply IH].
  - split; [apply Modal_frame_trace_captured|].
    specialize (IH (mkDialog (registry d)
                      (fst (Modal_frame timing os t (renderer d))))).
    simpl in IH.
    destruct (Modal_frame_keeps timing os t (renderer d)) as (_ & _ & _ & Hs & Hh).
    by rewrite Hs, Hh in IH.
Qed.

(** X13. The completion callbacks a renderer calls are the ones in the
    configuration it was first rendered with.  Through any registry
    calls, among them [setConfig] with other callbacks, renders and
    frames, every [onModalShow] or [onModalHide] call in the trace is a
    call of the callback stored when the renderer was mounted. *)
Theorem completion_callbacks_fixed_at_mount (st0 : ProviderState)
    (p0 : ModalProps) (ins : list DialogInput) :
  rendered_element id st0 = Some p0 ->
  completion_calls_are
    (onModalShow (selectedView (configs st0) (Some id)))
    (onModalHide (selectedView (configs st0) (Some id)))
    (snd (dialog_run ins (mkDialog st0 (Modal_mount p0)))).
Proof.
  intros Hel.
  pose proof (Dialog_run_trace_captured ins (mkDialog st0 (Modal_mount p0))) as H.
  simpl in H. rewrite rendered_element_fmap in Hel.
  destruct (obj_get id (views st0)) as [view|]; [|discriminate].
  simpl in Hel. injection Hel as <-. exact H.
Qed.

End DialogRuns.

Lemma completion_callbacks_fixed_at_mount_witness :
  let p0 := render_Modal hidden_registry (dialogA, Some 1%nat) in
  let ctx := fst (ReModalProvider hidden_registry) in
  let ins :=
    [AnimationFrame 16%Q;
     Call (CallSetConfig dialogA
             (mkProps None (Some true) (Some defaultModalAnimationStyle)
                (Some 80%nat) (Some 90%nat) None None None));
     Call (CallSetVisible ctx dialogA true); ProviderRender;
     AnimationFrame 32%Q; AnimationFrame 400%Q] in
  completion_calls_are
    (onModalShow (selectedView (configs hidden_registry) (Some dialogA)))
    (onModalHide (selectedView (configs hidden_registry) (Some dialogA)))
    (snd (Dialog_run timing_linear android dialogA ins
            (mkDialog hidden_registry (Modal_mount p0)))).
Proof.
  apply (completion_callbacks_fixed_at_mount timing_linear android dialogA
           hidden_registry (render_Modal hidden_registry (dialogA, Some 1%nat))).
  vm_compute. reflexivity.
Defined.

Lemma visibility_change_completes_once_witness :
  let run := Modal_run timing_linear android in
  let m := fst (run [Frame 16%Q] (Modal_mount visible_element)) in
  let fs := [32%Q; 100%Q; 200%Q; 300%Q] in
  let s := if visible_truthy (Some false) then BEGAN else END in
  snd (run (Render (Some false) :: frames fs) m) = completion_effects m s
  ∧ progress (fst (run (Render (Some false) :: frames fs) m))
    = target_of (State_value s)
  ∧ clockRunning (engine (fst (run (Render (Some false) :: frames fs) m))) = false
  ∧ rendered_isVisible (fst (run (Render (Some false) :: frames fs) m)) = Some false.
Proof.
  apply (visibility_change_completes_once timing_linear android visible_element
           [Frame 16%Q] (Some false) [32%Q; 100%Q; 200%Q; 300%Q]).
  - exact (timing_linear_contract _ (duration_pos android)).
  - vm_compute. reflexivity.
  - vm_compute. reflexivity.
  - vm_compute. discriminate.
Defined.

(** ** defaultModalAnimationStyle *)

Lemma Qle_bool_false (a b : Q) : Qle_bool a b = false -> (b < a)%Q.
Proof.
  intros H. destruct (Qlt_le_dec b a) as [|Hle]; [done|].
  apply Qle_bool_iff in Hle. congruence.
Qed.

Ltac Qle_cases :=
  repeat match goal with
    | |- context [Qle_bool ?a ?b] =>
        let E := fresh "E" in
        destruct (Qle_bool a b) eqn:E;
        [apply Qle_bool_iff in E|apply Qle_bool_false in E];
        cbn [negb]
    end.

(** Interpolation from [[0, 1]] to [[a, 1]], clamped. *)
Lemma interpolate_unit (a x : Q) :
  (interpolate x [0%Q; 1%Q] [a; 1%Q] == a + interpolate_clamp x * (1 - a))%Q.
Proof.
  unfold interpolate, interpolateInternal, interpolateInternalSingle,
    interpolate_clamp.
  cbn [List.hd List.last].
  replace (Qeq_bool 0 1) with false by reflexivity.
  assert (E : ((x - 0) / (1 - 0) == x)%Q) by field.
  Qle_cases; rewrite ?E; try first [lra | exfalso; lra | nra].
  - assert (Hx : (x == 0)%Q) by lra. rewrite Hx. ring.
  - assert (Hx : (x == 1)%Q) by lra. rewrite Hx. ring.
Qed.

(** Interpolation from [[0, 0.2, 1]] to [[0, 1, 1]], clamped. *)
Lemma interpolate_front_loaded (x : Q) :
  (interpolate x [0%Q; (2 # 10)%Q; 1%Q] [0%Q; 1%Q; 1%Q]
   == interpolate_clamp (5 * x))%Q.
Proof.
  unfold interpolate, interpolateInternal, interpolateInternalSingle,
    interpolate_clamp.
  cbn [List.hd List.last].
  replace (Qeq_bool 0 (2 # 10)) with false by reflexivity.
  replace (Qeq_bool (2 # 10) 1) with false by reflexivity.
  assert (E1 : ((x - 0) / ((2 # 10) - 0) == 5 * x)%Q) by field.
  assert (E2 : ((x - (2 # 10)) / (1 - (2 # 10)) == (5 # 4) * x - (1 # 4))%Q)
    by field.
  Qle_cases; rewrite ?E1, ?E2; lra.
Qed.

Lemma interpolate_clamp_mono (x y : Q) :
  (x <= y)%Q -> (interpolate_clamp x <= interpolate_clamp y)%Q.
Proof. intros H. unfold interpolate_clamp. Qle_cases; lra. Qed.

Lemma interpolate_clamp_inside (x : Q) :
  (0 <= x)%Q -> (x <= 1)%Q -> (interpolate_clamp x == x)%Q.
Proof. intros H0 H1. unfold interpolate_clamp. Qle_cases; lra. Qed.

Lemma default_style_shown (os : PlatformOS) (opacity : Q) :
  let shown := defaultModalAnimationStyle_value os (State_value BEGAN) opacity in
  (style_opacity shown
   == interpolate_clamp (match os with ios => 5 * opacity | _ => opacity end))%Q
  ∧ (style_scale shown
     == let a := match os with android => 8 # 10 | _ => 12 # 10 end in
        a + interpolate_clamp opacity * (1 - a))%Q.
Proof.
  cbv zeta. unfold defaultModalAnimationStyle_value.
  rewrite Z.eqb_refl. cbn [style_opacity style_scale].
  split.
  - destruct os.
    + apply interpolate_front_loaded.
    + rewrite interpolate_unit. lra.
    + rewrite interpolate_unit. lra.
  - destruct os; apply interpolate_unit.
Qed.

Lemma default_style_other (os : PlatformOS) (gestureState : Z) (opacity : Q) :
  gestureState ≠ State_value BEGAN ->
  defaultModalAnimationStyle_value os gestureState opacity
  = mkStyle opacity 1%Q 200%Q.
Proof.
  intros Hg. unfold defaultModalAnimationStyle_value.
  apply Z.eqb_neq in Hg. by rewrite Hg.
Qed.

(** X14. The default style in closed form.  While [BEGAN] is signalled
    the opacity is the progress clamped to [[0, 1]], on iOS five times
    the progress clamped (full opacity from progress 0.2 on), and the
    scale runs linearly in the clamped progress from 0.8 on Android,
    from 1.2 elsewhere, to 1.  Under any other signal the opacity is the
    progress and the scale is 1.  The perspective is always 200. *)
Theorem default_style_closed_form (os : PlatformOS) (gestureState : Z)
    (opacity : Q) :
  let shown := defaultModalAnimationStyle_value os (State_value BEGAN) opacity in
  (style_opacity shown
   == interpolate_clamp (match os with ios => 5 * opacity | _ => opacity end))%Q
  ∧ (style_scale shown
     == let a := match os with android => 8 # 10 | _ => 12 # 10 end in
        a + interpolate_clamp opacity * (1 - a))%Q
  ∧ (if gestureState =? State_value BEGAN then True
     else defaultModalAnimationStyle_value os gestureState opacity
          = mkStyle opacity 1%Q 200%Q)
  ∧ style_perspective (defaultModalAnimationStyle_value os gestureState opacity)
    = 200%Q.
Proof.
  cbv zeta. destruct (default_style_shown os opacity) as [Ho Hs].
  split; [exact Ho|]. split; [exact Hs|]. split; [|done].
  destruct (gestureState =? State_value BEGAN) eqn:Eg; [done|].
  apply default_style_other. by apply Z.eqb_neq.
Qed.

(** X15. For a progress between 0 and 1 the default style stays in
    range and follows the progress monotonically: the opacity lies
    between 0 and 1 and does not decrease when the progress grows; the
    scale lies between 0.8 and 1 and does not decrease on Android, and
    lies between 1 and 1.2 and does not increase elsewhere. *)
Theorem default_style_in_range_and_monotone (os : PlatformOS) (gestureState : Z)
    (o1 o2 : Q) :
  (0 <= o1)%Q -> (o1 <= o2)%Q -> (o2 <= 1)%Q ->
  let s1 := defaultModalAnimationStyle_value os gestureState o1 in
  let s2 := defaultModalAnimationStyle_value os gestureState o2 in
  (0 <= style_opacity s1)%Q
  ∧ (style_opacity s1 <= style_opacity s2)%Q
  ∧ (style_opacity s2 <= 1)%Q
  ∧ match os with
    | android =>
        ((8 # 10) <= style_scale s1)%Q ∧ (style_scale s1 <= style_scale s2)%Q
        ∧ (style_scale s2 <= 1)%Q
    | _ =>
        (1 <= style_scale s2)%Q ∧ (style_scale s2 <= style_scale s1)%Q
        ∧ (style_scale s1 <= (12 # 10))%Q
    end.
Proof.
  intros H0 H12 H1. cbv zeta.
  destruct (gestureState =? State_value BEGAN) eqn:Eg.
  - apply Z.eqb_eq in Eg. subst gestureState.
    pose proof (default_style_shown os o1) as (Ho1 & Hs1).
    pose proof (default_style_shown os o2) as (Ho2 & Hs2).
    cbv zeta in *.
    pose proof (interpolate_clamp_bounds o1) as [].
    pose proof (interpolate_clamp_bounds o2) as [].
    pose proof (interpolate_clamp_mono o1 o2 H12).
    pose proof (interpolate_clamp_bounds (5 * o1)) as [].
    pose proof (interpolate_clamp_bounds (5 * o2)) as [].
    assert (interpolate_clamp (5 * o1) <= interpolate_clamp (5 * o2))%Q
      by (apply interpolate_clamp_mono; lra).
    destruct os; repeat split; lra.
  - unfold defaultModalAnimationStyle_value. rewrite Eg.
    cbn [style_opacity style_scale].
    destruct os; repeat split; lra.
Qed.

Lemma default_style_in_range_and_monotone_witness :
  let s1 := defaultModalAnimationStyle_value ios 0 (1 # 10)%Q in
  let s2 := defaultModalAnimationStyle_value ios 0 (1 # 2)%Q in
  (0 <= style_opacity s1)%Q
  ∧ (style_opacity s1 <= style_opacity s2)%Q
  ∧ (style_opacity s2 <= 1)%Q
  ∧ ((1 <= style_scale s2)%Q ∧ (style_scale s2 <= style_scale s1)%Q
     ∧ (style_scale s1 <= (12 # 10))%Q).
Proof.
  apply (default_style_in_range_and_monotone ios 0 (1 # 10)%Q (1 # 2)%Q); lra.
Defined.

(** X16. The default style is not continuous in the signal.  At a
    progress below 1 the scale under [BEGAN] differs from the scale 1
    under any other signal, so a show interrupted by a hide, or a hide
    interrupted by a show, makes the scale jump; at progress 1 the two
    styles agree. *)
Theorem default_style_scale_jumps_on_reversal (os : PlatformOS)
    (gestureState : Z) (opacity : Q) :
  gestureState ≠ State_value BEGAN ->
  (0 <= opacity)%Q -> (opacity < 1)%Q ->
  let shown := defaultModalAnimationStyle_value os (State_value BEGAN) in
  let other := defaultModalAnimationStyle_value os gestureState in
  style_scale (other opacity) = 1%Q
  ∧ ¬ (style_scale (shown opacity) == style_scale (other opacity))%Q
  ∧ (style_scale (shown 1%Q) == style_scale (other 1%Q))%Q
  ∧ (style_opacity (shown 1%Q) == style_opacity (other 1%Q))%Q.
Proof.
  intros Hg H0 H1. cbv zeta.
  pose proof (default_style_shown os opacity) as (_ & Hs).
  pose proof (default_style_shown os 1) as (Ho1 & Hs1).
  pose proof (default_style_other os gestureState opacity Hg) as Hother.
  pose proof (default_style_other os gestureState 1 Hg) as Hother1.
  cbv zeta in *. rewrite Hother, Hother1.
  cbn [style_opacity style_scale].
  pose proof (interpolate_clamp_inside opacity H0 (Qlt_le_weak _ _ H1)) as Hin.
  assert (Hc1 : interpolate_clamp 1 = 1%Q) by reflexivity.
  assert (Hc5 : interpolate_clamp (5 * 1) = 1%Q) by reflexivity.
  rewrite Hc1 in Hs1.
  split; [done|].
  destruct os; rewrite ?Hc1, ?Hc5 in Ho1; repeat split; lra.
Qed.

Lemma default_style_scale_jumps_on_reversal_witness :
  let shown := defaultModalAnimationStyle_value android (State_value BEGAN) in
  let other := defaultModalAnimationStyle_value android (State_value END) in
  style_scale (other (1 # 2)%Q) = 1%Q
  ∧ ¬ (style_scale (shown (1 # 2)%Q) == style_scale (other (1 # 2)%Q))%Q
  ∧ (style_scale (shown 1%Q) == style_scale (other 1%Q))%Q
  ∧ (style_opacity (shown 1%Q) == style_opacity (other 1%Q))%Q.
Proof.
  apply (default_style_scale_jumps_on_reversal android (State_value END) (1 # 2)%Q).
  - discriminate.
  - lra.
  - lra.
Defined.

(** ** Further properties across the parts *)

(** Every registry reachable from the empty one has unique keys. *)
Lemma Registry_run_NoDup (calls : list RegistryCall) (st : ProviderState) :
  NoDup (obj_keys (views st)) -> NoDup (obj_keys (visibleView st)) ->
  NoDup (obj_keys (views (snd (Registry_run calls st))))
  ∧ NoDup (obj_keys (visibleView (snd (Registry_run calls st)))).
Proof.
  revert st. induction calls as [|c calls IH]; intros st Hv Hvis; [done|].
  simpl. apply IH; destruct c; simpl; try done; by apply obj_set_NoDup.
Qed.

(** X17. The auto-close check reads the configuration of the current
    dialog only: whatever configuration is stored for the dialog being
    opened, its own [autoCloseWhenOpeningNextDialog] and [onCancel]
    included, the call does the same, as long as that dialog is not the
    current one. *)
Theorem opened_dialog_configuration_is_not_read (ctx : IReModalContext)
    (key : string) (config : IReModalProps) (st : ProviderState) :
  closure_currentView ctx ≠ Some key ->
  fst (setVisible ctx key true (snd (setConfig key config st)))
  = fst (setVisible ctx key true st)
  ∧ hardwareBackPress ctx (snd (setConfig key config st))
    = hardwareBackPress ctx st.
Proof.
  intros Hne. unfold setVisible, hardwareBackPress. simpl.
  assert (Hsel : selectedView (<[key:=config]> (configs st)) (closure_currentView ctx)
                 = selectedView (configs st) (closure_currentView ctx)).
  { unfold selectedView. destruct (closure_currentView ctx) as [k|]; [|done].
    destruct (String.eqb k ""); [done|].
    rewrite lookup_insert_ne; [done|congruence]. }
  by rewrite Hsel.
Qed.

Lemma opened_dialog_configuration_is_not_read_witness :
  let ctx := fst (ReModalProvider sample_registry) in
  let config := mkProps (Some 70%nat) (Some false) None None None None None None in
  fst (setVisible ctx dialogB true (snd (setConfig dialogB config sample_registry)))
  = fst (setVisible ctx dialogB true sample_registry)
  ∧ hardwareBackPress ctx (snd (setConfig dialogB config sample_registry))
    = hardwareBackPress ctx sample_registry.
Proof.
  apply (opened_dialog_configuration_is_not_read
           (fst (ReModalProvider sample_registry)) dialogB
           (mkProps (Some 70%nat) (Some false) None None None None None None)
           sample_registry).
  vm_compute. discriminate.
Defined.

(** X18. A renderer takes pointer input exactly while the [isVisible]
    of its last render is true, whatever its progress: from the render
    that passes a new [isVisible] on, through all the frames of the
    transition, [pointerEvents] is ['auto'] for true and ['none']
    otherwise. *)
Theorem pointer_events_follow_last_render
    (timing : Q -> Q -> Q -> TimingState -> TimingState) (os : PlatformOS)
    (v : option bool) (fs : list Q) (m : ModalInstance) :
  pointerEvents (fst (Modal_run timing os (Render v :: frames fs) m))
  = if visible_truthy v then auto_events else none_events.
Proof.
  change (Modal_run timing os (Render v :: frames fs) m)
    with (fst (Modal_run timing os (frames fs) (Modal_update v m)),
          [] ++ snd (Modal_run timing os (frames fs) (Modal_update v m))).
  cbn [fst]. unfold pointerEvents.
  by rewrite Modal_frames_keep_rendered, Modal_update_rendered.
Qed.
